(** * twisted.trial._asyncrunner: suites, decorators and structural recursion

    A shallow embedding of [src/twisted/trial/_asyncrunner.py].

    Python objects live in a store indexed by object identity; a suite is an
    object whose [_tests] attribute lists the identities of its children, so
    that the in-place rebuilding done by [decorate] and the aliasing between a
    suite and the references held on it are visible in the model. *)

From stdpp Require Import gmap strings list fin_maps.
From Stdlib Require Import Lia.

(** * Part I. The model *)

(** ** Objects and the store *)

(** Object identity. *)
Abbreviation loc := nat (only parsing).

(** The concrete kinds of test case the module distinguishes: a case that
    provides [itrial.ITestCase] by itself, and the three pyunit kinds for
    which an adapter is registered at the end of the module. *)
Inductive shape :=
| TrialCase
| PyUnitCase
| FunctionTestCase
| DocTestCase.

(** The classes defined by the module that wrap a test. *)
Inductive cls :=
| TestDecorator
| _PyUnitTestCaseAdapter
| _BrokenIDTestCaseAdapter
| _ForceGarbageCollectionDecorator.

Inductive obj :=
| Case (kind : shape)
| Suite (_tests : list loc)
| Decorator (class : cls) (_originalTest : loc)
| Other.

Global Instance shape_eq_dec : EqDecision shape.
Proof. solve_decision. Defined.
Global Instance cls_eq_dec : EqDecision cls.
Proof. solve_decision. Defined.
Global Instance obj_eq_dec : EqDecision obj.
Proof. solve_decision. Defined.

Abbreviation heap := (gmap nat obj) (only parsing).

(** [iter(x)] succeeds on suites only; on every other object it raises
    [TypeError]. *)
Definition isSuite (o : obj) : bool :=
  match o with
  | Suite _ => true
  | _ => false
  end.

(** A location that holds a non-iterable object. *)
Definition isLeafAt (h : heap) (l : loc) : Prop :=
  ∃ o, h !! l = Some o ∧ isSuite o = false.

(** ** [_clearSuite], [addTest], [decorate] *)

(** [suite._tests = []] *)
Definition _clearSuite (suite : loc) (h : heap) : heap :=
  <[suite := Suite []]> h.

(** [pyunit.TestSuite.addTest]: append to [_tests]. *)
Definition addTest (suite test : loc) (h : heap) : option heap :=
  match h !! suite with
  | Some (Suite tests) => Some (<[suite := Suite (tests ++ [test])]> h)
  | _ => None
  end.

(** A decorator is a unary callable: given the identity of a test it returns
    the identity of the decorated test, possibly allocating. [None] stands for
    a call that does not return. *)
Abbreviation decorator :=
  (nat → gmap nat obj → option (nat * gmap nat obj)) (only parsing).

(** The store together with the record of the calls made to the decorator
    (argument, returned object), oldest first. *)
Record dstate := DState {
  st_heap : gmap nat obj;
  st_calls : list (nat * nat)
}.

Section Decorate.
Variable d : decorator.

(** [decorator(test)] *)
Definition callDecorator (test : loc) (σ : dstate) : option (loc * dstate) :=
  match d test (st_heap σ) with
  | Some (r, h') => Some (r, DState h' (st_calls σ ++ [(test, r)]))
  | None => None
  end.

(** The loop [for case in tests: test.addTest(decorate(case, decorator))],
    over the recursive call [rec]. *)
Fixpoint rebuild (rec : loc → dstate → option (loc * dstate))
    (test : loc) (tests : list loc) (σ : dstate) : option dstate :=
  match tests with
  | [] => Some σ
  | case :: rest =>
      match rec case σ with
      | Some (r, σ1) =>
          match addTest test r (st_heap σ1) with
          | Some h2 => rebuild rec test rest (DState h2 (st_calls σ1))
          | None => None
          end
      | None => None
      end
  end.

(** [decorate(test, decorator)]. The iterator obtained by [iter(test)]
    walks the list that [_tests] held before [_clearSuite] replaced it by a
    new empty list, hence the snapshot [tests]. The result is [None] when the
    fuel runs out, when a reference dangles or when a call of the decorator
    does not return. *)
Fixpoint decorate (fuel : nat) (test : loc) (σ : dstate)
    : option (loc * dstate) :=
  match fuel with
  | 0 => None
  | S fuel' =>
      match st_heap σ !! test with
      | None => None
      | Some (Suite tests) =>
          let σ1 := DState (_clearSuite test (st_heap σ)) (st_calls σ) in
          match rebuild (decorate fuel') test tests σ1 with
          | Some σ2 => Some (test, σ2)
          | None => None
          end
      | Some _ => callDecorator test σ
      end
  end.
End Decorate.

(** ** [iterateTests] *)

(** The nested loops of the generator: every leaf produced for every child,
    in order. *)
Fixpoint yieldAll (rec : loc → option (list loc)) (suite : list loc)
    : option (list loc) :=
  match suite with
  | [] => Some []
  | test :: rest =>
      match rec test with
      | Some subtests =>
          match yieldAll rec rest with
          | Some more => Some (subtests ++ more)
          | None => None
          end
      | None => None
      end
  end.

(** [iterateTests(testSuiteOrCase)], as the list of the values it yields. *)
Fixpoint iterateTests (fuel : nat) (h : heap) (testSuiteOrCase : loc)
    : option (list loc) :=
  match fuel with
  | 0 => None
  | S fuel' =>
      match h !! testSuiteOrCase with
      | None => None
      | Some (Suite suite) => yieldAll (iterateTests fuel' h) suite
      | Some _ => Some [testSuiteOrCase]
      end
  end.

(** ** Trees of tests *)

(** The tree a suite denotes: leaves and suites, each with its identity. *)
Unset Elimination Schemes.
Inductive tree :=
| TLeaf (l : loc)
| TSuite (s : loc) (children : list tree).
Set Elimination Schemes.

Definition root (t : tree) : loc :=
  match t with
  | TLeaf l => l
  | TSuite s _ => s
  end.

(** The leaves of a tree from left to right, leaves only. *)
Fixpoint leaves (t : tree) : list loc :=
  match t with
  | TLeaf l => [l]
  | TSuite _ ts => concat (map leaves ts)
  end.

(** The suite nodes of a tree. *)
Fixpoint suites (t : tree) : list loc :=
  match t with
  | TLeaf _ => []
  | TSuite s ts => s :: concat (map suites ts)
  end.

Fixpoint height (t : tree) : nat :=
  match t with
  | TLeaf _ => 0
  | TSuite _ ts => S (foldr max 0 (map height ts))
  end.

(** The branching structure of a tree: its suites, with the leaves erased. *)
Fixpoint skeleton (t : tree) : tree :=
  match t with
  | TLeaf _ => TLeaf 0
  | TSuite s ts => TSuite s (map skeleton ts)
  end.

(** The store [h] holds the tree [t]: every suite node is a suite object whose
    [_tests] are the roots of its children, every leaf a non-iterable
    object. *)
Fixpoint models (h : heap) (t : tree) : bool :=
  match t with
  | TLeaf l =>
      match h !! l with
      | Some o => negb (isSuite o)
      | None => false
      end
  | TSuite s ts =>
      match h !! s with
      | Some (Suite tests) =>
          bool_decide (tests = map root ts) && forallb (models h) ts
      | _ => false
      end
  end.

(** ** Frames *)

(** Every non-iterable object of [h] is the same object in [h']. *)
Definition keepsLeaves (h h' : heap) : Prop :=
  ∀ k o, h !! k = Some o → isSuite o = false → h' !! k = Some o.

(** From [h] to [h'] only suite objects listed in [S] were modified (objects
    may have been allocated). *)
Definition preserved (S : list loc) (h h' : heap) : Prop :=
  ∀ k o, h !! k = Some o → isSuite o = false ∨ k ∉ S → h' !! k = Some o.

(** [d] behaves as a wrapper on the tests listed in [L], in every store that
    still holds the non-iterable objects of [h0]: the call returns a
    non-iterable object and modifies no existing object. *)
Definition wraps (d : decorator) (h0 : heap) (L : list loc) : Prop :=
  ∀ l h, l ∈ L → keepsLeaves h0 h →
    ∃ r h', d l h = Some (r, h') ∧ h ⊆ h' ∧ isLeafAt h' r.

(** ** The contract of [decorate] on a stored tree *)

(** What a call of [decorate] on the root of [t] needs from the store ... *)
Definition decorable (d : decorator) (h0 : heap) (t : tree) (σ : dstate)
    : Prop :=
  models (st_heap σ) t = true ∧ NoDup (suites t) ∧
  keepsLeaves h0 (st_heap σ) ∧ wraps d h0 (leaves t).

(** ... and what it does: it returns the root of a tree [t'] with the
    branching structure of [t], stored in the new store, after calling the
    decorator on the leaves of [t] from left to right, [leaves t'] being the
    objects the decorator returned; suite objects outside [t] are untouched. *)
Definition decorated (d : decorator) (fuel : nat) (t : tree) (σ : dstate)
    : Prop :=
  ∃ t' h',
    decorate d fuel (root t) σ
      = Some (root t', DState h' (st_calls σ ++ zip (leaves t) (leaves t'))) ∧
    skeleton t' = skeleton t ∧
    models h' t' = true ∧
    preserved (suites t) (st_heap σ) h'.


(** ** Adapters and the construction of decorators *)

Inductive exn :=
| TypeError
| AttributeError
| UnadaptableTestError
| Exception (name : string).

(** The registrations made when the module is loaded:
    [pyunit.TestCase] to [_PyUnitTestCaseAdapter], [pyunit.FunctionTestCase]
    and [doctest.DocTestCase] to [_BrokenIDTestCaseAdapter]. *)
Definition registeredAdapter (kind : shape) : option cls :=
  match kind with
  | TrialCase => None
  | PyUnitCase => Some _PyUnitTestCaseAdapter
  | FunctionTestCase => Some _BrokenIDTestCaseAdapter
  | DocTestCase => Some _BrokenIDTestCaseAdapter
  end.

(** The objects that provide [itrial.ITestCase] themselves: native cases, and
    the instances of [TestDecorator], which declares
    [implements(itrial.ITestCase)]. *)
Definition providesITestCase (o : obj) : bool :=
  match o with
  | Case TrialCase => true
  | Decorator _ _ => true
  | _ => false
  end.

(** The objects for which an adapter is registered. *)
Definition adaptable (o : obj) : bool :=
  match o with
  | Case kind => bool_decide (is_Some (registeredAdapter kind))
  | _ => false
  end.

(** Modelled from the spec: the constructor of [TestDecorator], which the
    class inherits from [components.proxyForInterface(itrial.ITestCase,
    "_originalTest")]; that function is not part of the sources. Sections 4.2
    and 7: constructing with a value that does not satisfy the Capability
    Contract and is not adaptable fails with [UnadaptableTestError], at
    construction; otherwise the new object holds the value as
    [_originalTest]. *)
Definition construct (class : cls) (originalTest : loc) (h : heap)
    : exn + (loc * gmap nat obj) :=
  match h !! originalTest with
  | Some o =>
      if providesITestCase o || adaptable o then
        let self := fresh (dom h) in
        inr (self, <[self := Decorator class originalTest]> h)
      else inl UnadaptableTestError
  | None => inl UnadaptableTestError
  end.

(** The objects [construct] accepts, among the non-iterable ones. *)
Definition wrappable (h : heap) (l : loc) : bool :=
  match h !! l with
  | Some o => negb (isSuite o) && (providesITestCase o || adaptable o)
  | None => false
  end.

(** A class used as the decorator argument of [decorate]. *)
Definition classAsDecorator (class : cls) : decorator :=
  λ test h,
    match construct class test h with
    | inr r => Some r
    | inl _ => None
    end.

(** ** [_BrokenIDTestCaseAdapter.id] *)

Section Identity.
(** The methods [shortDescription()] and [id()] of the wrapped cases;
    [None] is Python's [None]. *)
Variable shortDescription : loc → option string.
Variable id : loc → string.

(** [_BrokenIDTestCaseAdapter.id(self)]; [None] when [self] has no
    [_originalTest]. *)
Definition _BrokenIDTestCaseAdapter_id (h : heap) (self : loc)
    : option string :=
  match h !! self with
  | Some (Decorator _ _originalTest) =>
      let testID := shortDescription _originalTest in
      match testID with
      | Some description => Some description
      | None => Some (id _originalTest)
      end
  | _ => None
  end.
End Identity.

(** ** The world a run acts on *)

(** A logged failure. *)
Abbreviation error := string (only parsing).

(** Modelled from the spec: [_logObserver], the process-wide collector of
    [twisted.trial._synctest], is not part of the sources. Section 3: a list
    of captured log errors with an explicit lifecycle. *)
Record LogObserver := {
  capturing : bool;
  captured : list string
}.

(** Modelled from the spec: [_logObserver._add()], start capturing. *)
Definition _add (o : LogObserver) : LogObserver :=
  {| capturing := true; captured := captured o |}.

(** Modelled from the spec: [_logObserver.getErrors()], a snapshot of the
    captured errors. *)
Definition getErrors (o : LogObserver) : list error := captured o.

(** Modelled from the spec: [_logObserver.flushErrors()], clear. *)
Definition flushErrors (o : LogObserver) : LogObserver :=
  {| capturing := capturing o; captured := [] |}.

(** Modelled from the spec: [_logObserver._remove()], stop capturing. *)
Definition _remove (o : LogObserver) : LogObserver :=
  {| capturing := false; captured := captured o |}.

(** Modelled from the spec: an error logged while the collector captures is
    appended to the captured errors; otherwise the collector does not see
    it. *)
Definition gotEvent (e : error) (o : LogObserver) : LogObserver :=
  if capturing o then {| capturing := true; captured := captured o ++ [e] |}
  else o.

(** A result object: the result collector, or
    [reporter._AdaptedReporter(original, testAdapter)]. *)
Inductive result :=
| Collector
| _AdaptedReporter (original : result) (testAdapter : cls).

(** A test as the result collector is told about it: an object, or the
    wrapper [testAdapter(test)] built by an adapted reporter. *)
Inductive testref :=
| TestObject (l : loc)
| Adapted (testAdapter : cls) (test : testref).

(** The test the result collector is told about when [test] is reported to
    [result]. *)
Fixpoint attribute (result : result) (test : testref) : testref :=
  match result with
  | Collector => test
  | _AdaptedReporter original testAdapter =>
      attribute original (Adapted testAdapter test)
  end.

Inductive pyvalue :=
| PyNone
| PyResult (r : result)
| PyObject (l : loc).

(** The collector of logged errors, the [shouldStop] attribute of the result
    collector, and the calls of [addError] the result collector received,
    oldest first. *)
Record world := World {
  _logObserver : LogObserver;
  shouldStop : bool;
  addErrorCalls : list (testref * string)
}.

Definition onObserver (f : LogObserver → LogObserver) (w : world) : world :=
  World (f (_logObserver w)) (shouldStop w) (addErrorCalls w).

Definition recordAddError (test : testref) (e : error) (w : world) : world :=
  World (_logObserver w) (shouldStop w) (addErrorCalls w ++ [(test, e)]).

(** ** Calls that return or raise *)

Inductive outcome (A : Type) :=
| Returns (v : A) (w : world)
| Raises (x : exn) (w : world).
Arguments Returns {A} v w.
Arguments Raises {A} x w.

Definition M (A : Type) : Type := world → outcome A.

Definition ret {A} (v : A) : M A := λ w, Returns v w.

Definition raise {A} (x : exn) : M A := λ w, Raises x w.

Definition bind {A B} (m : M A) (k : A → M B) : M B :=
  λ w,
    match m w with
    | Returns v w' => k v w'
    | Raises x w' => Raises x w'
    end.

Notation "'let*' x ':=' m 'in' k" := (bind m (λ x, k))
  (at level 10, x name, m at level 200, k at level 200).

Definition modify (f : world → world) : M unit := λ w, Returns tt (f w).

Definition gets {A} (f : world → A) : M A := λ w, Returns (f w) w.

(** [for x in xs: body(x)] *)
Fixpoint forEach {A} (xs : list A) (body : A → M unit) : M unit :=
  match xs with
  | [] => ret tt
  | x :: rest => let* _ := body x in forEach rest body
  end.

(** ** [TestSuite], [TestDecorator], [_ForceGarbageCollectionDecorator] *)

Section Run.
(** The store; a run does not restructure suites. *)
Variable h : heap.
(** [gc.collect()]; the finalizers it runs may log errors. *)
Variable gc_collect : world → world.
(** [t.run(result)] of a wrapped test [t]. *)
Variable run : loc → result → M pyvalue.
(** [t(result)] of a child [t] of a suite. *)
Variable call : loc → result → M pyvalue.
(** Whether [addError(test, error)] of the result collector raises. *)
Variable addError_raises : testref → error → world → option exn.

(** [result.addError(test, error)]. The result collector is an external
    collaborator: it receives the call, and may raise.

    Modelled from the spec: [reporter._AdaptedReporter] is not part of the
    sources; per section 4.2 it attributes what is reported to the
    decorator's class, by handing [testAdapter(test)] to the original
    result. *)
Fixpoint addError (result : result) (test : testref) (error : error)
    : M unit :=
  match result with
  | Collector => λ w,
      let w' := recordAddError test error w in
      match addError_raises test error w with
      | Some x => Raises x w'
      | None => Returns tt w'
      end
  | _AdaptedReporter original testAdapter =>
      addError original (Adapted testAdapter test) error
  end.

(** The loop of [TestSuite.run], with the list of the children it
    invoked. *)
Fixpoint runTests (tests : list loc) (result : result) (w : world)
    : list loc * outcome unit :=
  match tests with
  | [] => ([], Returns tt w)
  | test :: rest =>
      if shouldStop w then ([], Returns tt w)
      else
        match call test result w with
        | Returns _ w' =>
            let '(invoked, out) := runTests rest result w' in
            (test :: invoked, out)
        | Raises x w' => ([test], Raises x w')
        end
  end.

(** [TestSuite.run(self, result)], with the children it invoked. *)
Definition TestSuite_run (self : loc) (result : result) (w : world)
    : list loc * outcome pyvalue :=
  match h !! self with
  | Some (Suite tests) =>
      let '(invoked, out) := runTests tests result w in
      (invoked,
       match out with
       | Returns _ w' => Returns (PyResult result) w'
       | Raises x w' => Raises x w'
       end)
  | _ => ([], Raises AttributeError w)
  end.

(** [TestSuite.__call__(self, result)] *)
Definition TestSuite___call__ (self : loc) (result : result) (w : world)
    : list loc * outcome pyvalue :=
  TestSuite_run self result w.

(** [TestDecorator.run(self, result)] *)
Definition TestDecorator_run (self : loc) (result : result) : M pyvalue :=
  match h !! self with
  | Some (Decorator class _originalTest) =>
      run _originalTest (_AdaptedReporter result class)
  | _ => raise AttributeError
  end.

(** [_ForceGarbageCollectionDecorator.run(self, result)] *)
Definition _ForceGarbageCollectionDecorator_run (self : loc)
    (result : result) : M pyvalue :=
  let* _ := modify gc_collect in
  let* _ := TestDecorator_run self result in
  let* _ := modify (onObserver _add) in
  let* _ := modify gc_collect in
  let* errors := gets (λ w, getErrors (_logObserver w)) in
  let* _ := forEach errors (λ error, addError result (TestObject self) error) in
  let* _ := modify (onObserver flushErrors) in
  let* _ := modify (onObserver _remove) in
  ret PyNone.

(** The [run] method of an instance of [class]: only
    [_ForceGarbageCollectionDecorator] overrides [TestDecorator.run]. *)
Definition run_method (class : cls) : loc → result → M pyvalue :=
  match class with
  | _ForceGarbageCollectionDecorator => _ForceGarbageCollectionDecorator_run
  | _ => TestDecorator_run
  end.

(** [TestDecorator.__call__(self, result)]: [self.run(result)] *)
Definition TestDecorator___call__ (self : loc) (result : result)
    : M pyvalue :=
  match h !! self with
  | Some (Decorator class _) => run_method class self result
  | _ => raise AttributeError
  end.
End Run.

(** ** Example data *)

(** A suite that holds a native case and a nested suite with one pyunit
    case. *)
Definition exampleStore : gmap nat obj :=
  <[0 := Suite [1; 2]]> (<[1 := Case TrialCase]>
    (<[2 := Suite [3]]> (<[3 := Case PyUnitCase]> ∅))).

Definition exampleTree : tree := TSuite 0 [TLeaf 1; TSuite 2 [TLeaf 3]].

(** The same store with an object that is not a test. *)
Definition strayStore : gmap nat obj := <[7 := Other]> exampleStore.

(** A native case and a forced-collection decorator that wraps it. *)
Definition decoratedStore : gmap nat obj :=
  <[0 := Case TrialCase]>
    (<[1 := Decorator _ForceGarbageCollectionDecorator 0]> ∅).

(** A function-style case wrapped by the adapter registered for it. *)
Definition adaptedStore : gmap nat obj :=
  <[0 := Case FunctionTestCase]>
    (<[1 := Decorator _BrokenIDTestCaseAdapter 0]> ∅).

(** Nothing is captured, nothing was reported, no stop was requested. *)
Definition idleWorld : world :=
  World {| capturing := false; captured := [] |} false [].

(** A collection sweep whose finalizers log two errors. *)
Definition sweepLoggingTwo (w : world) : world :=
  onObserver (λ o, gotEvent "second" (gotEvent "first" o)) w.

(** A wrapped test that passes and returns a value that is not [None]. *)
Definition passingRun : loc → result → M pyvalue :=
  λ test _, ret (PyObject test).

Definition neverRaises : testref → error → world → option exn :=
  λ _ _ _, None.

Definition alwaysRaises : testref → error → world → option exn :=
  λ _ _ _, Some (Exception "IOError").

(** A child whose run asks the result to stop. *)
Definition stoppingCall : loc → result → M pyvalue :=
  λ _ _ w, Returns PyNone (World (_logObserver w) true (addErrorCalls w)).

(** A suite that holds the same nested suite twice. *)
Definition sharedStore : gmap nat obj :=
  <[0 := Suite [2; 2]]> (<[2 := Suite [3]]> (<[3 := Case PyUnitCase]> ∅)).

(** The calls made to the decorator, and the leaves yielded afterwards. *)
Definition callsAndLeaves (r : option (loc * dstate))
    : option (loc * list (loc * loc) * option (list loc)) :=
  match r with
  | Some (test, σ) => Some (test, st_calls σ, iterateTests 5 (st_heap σ) test)
  | None => None
  end.

(** ** Visiting: [suiteVisit], [TestSuite.visit], [_PyUnitTestCaseAdapter.visit] *)

(** The store, the arguments of the calls made to the visitor, oldest first,
    and the number of deprecation warnings issued. *)
Record vstate := VState {
  v_heap : gmap nat obj;
  v_visited : list nat;
  v_warnings : nat
}.

(** [warnings.warn("Test visitors deprecated in Twisted 8.0", ...)] *)
Definition warn (σ : vstate) : vstate :=
  VState (v_heap σ) (v_visited σ) (S (v_warnings σ)).

(** [visitor(x)] *)
Definition callVisitor (x : loc) (σ : vstate) : vstate :=
  VState (v_heap σ) (v_visited σ ++ [x]) (v_warnings σ).

(** [_PyUnitTestCaseAdapter.visit(self, visitor)] *)
Definition _PyUnitTestCaseAdapter_visit (self : loc) (σ : vstate) : vstate :=
  callVisitor self (warn σ).

(** [itrial.ITestCase(case)]: an object that provides the interface is
    returned as it is; otherwise the adapter registered for its kind is built
    around it; otherwise the adaptation fails. *)
Definition ITestCase (case : loc) (h : heap) : option (loc * gmap nat obj) :=
  match h !! case with
  | Some o =>
      if providesITestCase o then Some (case, h)
      else
        match o with
        | Case kind =>
            match registeredAdapter kind with
            | Some class =>
                let self := fresh (dom h) in
                Some (self, <[self := Decorator class case]> h)
            | None => None
            end
        | _ => None
        end
  | None => None
  end.

Section Visit.
(** The [visit] methods defined outside the module: the one of a native case,
    and what a proxy that does not override [visit] forwards to. *)
Variable foreignVisit : loc → vstate → option vstate.

(** The body of the loop of [suiteVisit] for one [case], over the recursive
    call [rec]. A suite is visited by [suiteVisit], whether through its own
    [visit] or through the [pyunit.TestSuite] branch; a pyunit case has no
    [visit] and is adapted first, the adapter being an instance of
    [_PyUnitTestCaseAdapter] or of its subclass; any other object without
    [visit] ends in [case.visit(visitor)], which does not return. *)
Definition visitCase (rec : loc → vstate → option vstate)
    (case : loc) (σ : vstate) : option vstate :=
  match v_heap σ !! case with
  | Some (Suite _) => rec case σ
  | Some (Case TrialCase) => foreignVisit case σ
  | Some (Case _) =>
      match ITestCase case (v_heap σ) with
      | Some (adapter, h') =>
          Some (_PyUnitTestCaseAdapter_visit adapter
                  (VState h' (v_visited σ) (v_warnings σ)))
      | None => None
      end
  | Some (Decorator _PyUnitTestCaseAdapter _) =>
      Some (_PyUnitTestCaseAdapter_visit case σ)
  | Some (Decorator _BrokenIDTestCaseAdapter _) =>
      Some (_PyUnitTestCaseAdapter_visit case σ)
  | Some (Decorator _ _) => foreignVisit case σ
  | Some Other => None
  | None => None
  end.

(** [for case in suite._tests: ...] *)
Fixpoint visitAll (visitOne : loc → vstate → option vstate)
    (tests : list loc) (σ : vstate) : option vstate :=
  match tests with
  | [] => Some σ
  | case :: rest =>
      match visitOne case σ with
      | Some σ' => visitAll visitOne rest σ'
      | None => None
      end
  end.

(** [suiteVisit(suite, visitor)], which is also [TestSuite.visit]. *)
Fixpoint suiteVisit (fuel : nat) (suite : loc) (σ : vstate)
    : option vstate :=
  match fuel with
  | 0 => None
  | S fuel' =>
      match v_heap σ !! suite with
      | Some (Suite _tests) =>
          visitAll (visitCase (suiteVisit fuel')) _tests (warn σ)
      | _ => None
      end
  end.
End Visit.

(** A leaf whose visit is decided by the module: a pyunit case, or an
    instance of one of the two adapter classes. *)
Definition visitable (h : heap) (l : loc) : bool :=
  match h !! l with
  | Some (Case kind) => bool_decide (is_Some (registeredAdapter kind))
  | Some (Decorator _PyUnitTestCaseAdapter _) => true
  | Some (Decorator _BrokenIDTestCaseAdapter _) => true
  | _ => false
  end.

(** What the visitor receives for the leaf [l]: the leaf itself when it is an
    adapter, and otherwise a new adapter of the registered class around it. *)
Definition visitedFor (h h' : heap) (l v : loc) : Prop :=
  (v = l ∧ ∃ class orig, h !! l = Some (Decorator class orig)) ∨
  (∃ kind class,
     h !! l = Some (Case kind) ∧ registeredAdapter kind = Some class ∧
     h !! v = None ∧ h' !! v = Some (Decorator class l)).

(** ** Running nested suites *)

(** What [TestSuite.run] makes of the outcome of its loop. *)
Definition returnResult (result : result) (out : outcome unit)
    : outcome pyvalue :=
  match out with
  | Returns _ w => Returns (PyResult result) w
  | Raises x w => Raises x w
  end.

Section NestedRun.
Variable h : heap.
(** [t(result)] of a test [t] that is not a suite. *)
Variable leafCall : loc → result → M pyvalue.

(** [test(result)]: a suite is run by [TestSuite.__call__], its children
    being called in the same way. Running out of fuel is Python running out of
    stack. *)
Fixpoint callTest (fuel : nat) (test : loc) (result : result) : M pyvalue :=
  match fuel with
  | 0 => raise (Exception "RuntimeError")
  | S fuel' =>
      match h !! test with
      | Some (Suite _) =>
          λ w, snd (TestSuite___call__ h (callTest fuel') test result w)
      | _ => leafCall test result
      end
  end.
End NestedRun.

(** ** More example data *)

(** A decorator that returns the test it is given. *)
Definition sameTest : decorator := λ test h, Some (test, h).

(** A suite of pyunit cases, with one adapter already in place. *)
Definition visitStore : gmap nat obj :=
  <[0 := Suite [1; 2]]> (<[1 := Case PyUnitCase]>
    (<[2 := Suite [3; 4]]> (<[3 := Case FunctionTestCase]>
      (<[4 := Decorator _PyUnitTestCaseAdapter 1]> ∅)))).

Definition visitTree : tree :=
  TSuite 0 [TLeaf 1; TSuite 2 [TLeaf 3; TLeaf 4]].

Definition noForeignVisit : loc → vstate → option vstate := λ _ _, None.

(** A child whose call raises. *)
Definition raisingCall : loc → result → M pyvalue :=
  λ _ _, raise (Exception "KeyboardInterrupt").

(** A leaf whose call reports an error named after nothing but itself. *)
Definition recordingCall : loc → result → M pyvalue :=
  λ test _ w, Returns PyNone (recordAddError (TestObject test) "ran" w).

(** ** Predicates on stores used by the further properties *)

(** From [h] to [h'] no object disappeared and no non-iterable object
    changed. *)
Definition grows (h h' : heap) : Prop :=
  ∀ k o, h !! k = Some o →
    ∃ o', h' !! k = Some o' ∧ (isSuite o = false → o' = o).

(** [r] is an instance of [class] built around [l] that did not exist in
    [h0]. *)
Definition wrappedBy (class : cls) (h0 h : heap) (l r : loc) : Prop :=
  h !! r = Some (Decorator class l) ∧ h0 !! r = None.

(** What [itrial.ITestCase] returns for the leaf [l] of [h0]: the leaf itself
    when it provides the interface, and otherwise a new instance of the
    registered adapter around it. *)
Definition adaptedFor (h0 h : heap) (l r : loc) : Prop :=
  (r = l ∧ ∃ o, h0 !! l = Some o ∧ providesITestCase o = true) ∨
  (∃ kind class,
     h0 !! l = Some (Case kind) ∧ registeredAdapter kind = Some class ∧
     wrappedBy class h0 h l r).

(** The object at [r] provides [itrial.ITestCase]. *)
Definition providesAt (h : heap) (r : loc) : Prop :=
  ∃ o, h !! r = Some o ∧ providesITestCase o = true.

(** From [σ] to [σ'] the store grew, and every call to the decorator recorded
    in between established [Post], which holds in the store of [σ']. *)
Definition callsMade (Post : loc → loc → heap → Prop) (σ σ' : dstate)
    : Prop :=
  grows (st_heap σ) (st_heap σ') ∧
  ∃ new, st_calls σ' = st_calls σ ++ new ∧
         Forall (λ c, Post c.1 c.2 (st_heap σ')) new.

(** What a call [itrial.ITestCase(l)] that returned [r] established, as seen
    in a later store [h]. *)
Definition adaptedIn (h0 h : heap) (l r : loc) : Prop :=
  (r = l ∧ providesAt h l) ∨
  (∃ kind class,
     h !! l = Some (Case kind) ∧ registeredAdapter kind = Some class ∧
     wrappedBy class h0 h l r).

(** A suite that was added to itself. *)
Definition selfStore : gmap nat obj :=
  <[0 := Suite [1; 0]]> (<[1 := Case TrialCase]> ∅).
(** * Part II. Auxiliary facts *)

(** ** Reasoning about trees *)

(** Induction on trees, with the hypothesis available for every child. *)
Lemma tree_ind (P : tree → Prop) :
  (∀ l, P (TLeaf l)) →
  (∀ s ts, Forall P ts → P (TSuite s ts)) →
  ∀ t, P t.
Proof.
  intros Hleaf Hsuite. fix IH 1. intros [l|s ts].
  - apply Hleaf.
  - apply Hsuite. induction ts as [|t ts IHts]; constructor; [apply IH|apply IHts].
Qed.

Lemma forallb_Forall {A} (f : A → bool) (xs : list A) :
  forallb f xs = true ↔ Forall (λ x, f x = true) xs.
Proof.
  induction xs as [|x xs IH]; simpl.
  - split; [constructor|done].
  - rewrite andb_true_iff, IH, Forall_cons. done.
Qed.

Lemma elem_of_concat_map {A B} (f : A → list B) (xs : list A) (y : B) :
  y ∈ concat (map f xs) ↔ ∃ x, x ∈ xs ∧ y ∈ f x.
Proof.
  induction xs as [|x xs IH]; simpl.
  - split; [by intros ?%elem_of_nil|by intros (x & ?%elem_of_nil & _)].
  - rewrite elem_of_app, IH. split.
    + intros [Hy|(x' & Hx' & Hy)]; [exists x|exists x']; split; auto; by constructor.
    + intros (x' & [->|Hx']%elem_of_cons & Hy); eauto.
Qed.

Lemma models_leaf h l :
  models h (TLeaf l) = true ↔ isLeafAt h l.
Proof.
  unfold isLeafAt. simpl. split.
  - destruct (h !! l) as [o|]; [|done]. intros Ho. exists o.
    split; [done|]. by destruct (isSuite o).
  - intros (o & -> & ->). done.
Qed.

Lemma models_suite h s ts :
  models h (TSuite s ts) = true ↔
  h !! s = Some (Suite (map root ts)) ∧ Forall (λ t, models h t = true) ts.
Proof.
  simpl. split.
  - destruct (h !! s) as [[| tests | |]|]; try done.
    intros [Heq Hall]%andb_true_iff. apply bool_decide_eq_true in Heq.
    subst tests. split; [done|]. by apply forallb_Forall.
  - intros [-> Hall]. apply andb_true_iff. split.
    + by apply bool_decide_eq_true.
    + by apply forallb_Forall.
Qed.

Lemma height_child t ts :
  t ∈ ts → height t ≤ foldr max 0 (map height ts).
Proof.
  induction ts as [|t' ts IH]; [by intros ?%elem_of_nil|].
  intros [->|Hin]%elem_of_cons; simpl; [lia|].
  specialize (IH Hin). lia.
Qed.

(** A suite node of a stored tree is a suite object; a leaf is not. *)
Lemma models_suites h t s :
  models h t = true → s ∈ suites t → ∃ tests, h !! s = Some (Suite tests).
Proof.
  induction t as [l|s' ts IH] using tree_ind; [by intros _ ?%elem_of_nil|].
  intros [Hs Hall]%models_suite. simpl.
  intros [->|Hin]%elem_of_cons; [eauto|].
  apply elem_of_concat_map in Hin as (t & Ht & Hin).
  rewrite !Forall_forall in IH, Hall. eauto.
Qed.

Lemma models_leaves h t l :
  models h t = true → l ∈ leaves t → isLeafAt h l.
Proof.
  induction t as [l'|s' ts IH] using tree_ind.
  - intros Hl%models_leaf ?%list_elem_of_singleton. by subst.
  - intros [Hs Hall]%models_suite. simpl.
    intros Hin. apply elem_of_concat_map in Hin as (t & Ht & Hin).
    rewrite !Forall_forall in IH, Hall. eauto.
Qed.

(** ** [iterateTests] computes the leaves of the stored tree *)

Lemma iterateTests_leaf fuel h l :
  isLeafAt h l → iterateTests (S fuel) h l = Some [l].
Proof. intros (o & Ho & Hleaf). simpl. rewrite Ho. by destruct o. Qed.

Lemma iterateTests_tree h t :
  ∀ fuel, height t < fuel → models h t = true →
  iterateTests fuel h (root t) = Some (leaves t).
Proof.
  induction t as [l|s ts IH] using tree_ind; intros fuel Hfuel Hm.
  - destruct fuel as [|fuel]; [lia|].
    by apply iterateTests_leaf, models_leaf.
  - destruct fuel as [|fuel]; [lia|]. simpl in Hfuel.
    apply models_suite in Hm as [Hs Hall]. simpl. rewrite Hs.
    assert (Hh : ∀ t, t ∈ ts → height t < fuel).
    { intros t Ht. apply height_child in Ht. lia. }
    clear Hs Hfuel. induction ts as [|t ts IHts]; [done|].
    apply Forall_cons in IH as [IHt IH], Hall as [Ht Hall]. simpl.
    rewrite IHt; [|apply Hh; left|done].
    rewrite IHts; [done..|]. intros t' Ht'. apply Hh. by right.
Qed.

(** ** Frames are preorders; stored trees survive them *)

Lemma preserved_keepsLeaves S h h' : preserved S h h' → keepsLeaves h h'.
Proof. intros Hp k o Hk Ho. apply Hp; auto. Qed.

Lemma keepsLeaves_trans h1 h2 h3 :
  keepsLeaves h1 h2 → keepsLeaves h2 h3 → keepsLeaves h1 h3.
Proof. intros H12 H23 k o Hk Ho. eauto. Qed.

Lemma preserved_refl S h : preserved S h h.
Proof. by intros k o Hk _. Qed.

Lemma preserved_mono S S' h h' :
  (∀ k, k ∈ S → k ∈ S') → preserved S h h' → preserved S' h h'.
Proof. intros Hsub Hp k o Hk [Ho|Hn]; apply Hp; auto. Qed.

Lemma preserved_trans S h1 h2 h3 :
  preserved S h1 h2 → preserved S h2 h3 → preserved S h1 h3.
Proof. intros H12 H23 k o Hk Hc. apply H23; [|done]. by apply H12. Qed.

Lemma preserved_subseteq S (h h' : heap) : h ⊆ h' → preserved S h h'.
Proof. intros Hsub k o Hk _. by eapply lookup_weaken. Qed.

Lemma preserved_insert_suite (h : heap) s tests tests' :
  h !! s = Some (Suite tests) → preserved [s] h (<[s := Suite tests']> h).
Proof.
  intros Hs k o Hk Hc. destruct (decide (s = k)) as [<-|Hne].
  - rewrite Hs in Hk. injection Hk as <-.
    destruct Hc as [?|Hn]; [done|]. exfalso. apply Hn. by left.
  - by rewrite lookup_insert_ne.
Qed.

Lemma models_preserved S h h' t :
  models h t = true → preserved S h h' → (∀ k, k ∈ suites t → k ∉ S) →
  models h' t = true.
Proof.
  induction t as [l|s ts IH] using tree_ind; intros Hm Hp Hdisj.
  - apply models_leaf in Hm as (o & Ho & Hleaf). apply models_leaf.
    exists o. split; [|done]. apply Hp; auto.
  - apply models_suite in Hm as [Hs Hall]. apply models_suite. split.
    + apply Hp; [done|]. right. apply Hdisj. by left.
    + rewrite !Forall_forall in IH, Hall. apply Forall_forall.
      intros t Ht. apply IH; [done|by apply Hall|done|].
      intros k Hk. apply Hdisj. right. apply elem_of_concat_map. eauto.
Qed.

Lemma Forall_models_preserved S h h' ts :
  Forall (λ t, models h t = true) ts → preserved S h h' →
  (∀ k, k ∈ concat (map suites ts) → k ∉ S) →
  Forall (λ t, models h' t = true) ts.
Proof.
  rewrite !Forall_forall. intros Hall Hp Hdisj t Ht.
  eapply models_preserved; [by apply Hall|done|].
  intros k Hk. apply Hdisj, elem_of_concat_map. eauto.
Qed.

(** ** What the skeleton determines *)

Lemma suites_skeleton t : suites (skeleton t) = suites t.
Proof.
  induction t as [l|s ts IH] using tree_ind; [done|]. simpl. f_equal.
  induction IH as [|t ts Ht _ IHts]; [done|]. simpl. by rewrite Ht, IHts.
Qed.

Lemma length_leaves_skeleton t :
  length (leaves (skeleton t)) = length (leaves t).
Proof.
  induction t as [l|s ts IH] using tree_ind; [done|]. simpl.
  induction IH as [|t ts Ht _ IHts]; [done|]. simpl.
  by rewrite !length_app, Ht, IHts.
Qed.

Lemma height_skeleton t : height (skeleton t) = height t.
Proof.
  induction t as [l|s ts IH] using tree_ind; [done|]. simpl. f_equal.
  induction IH as [|t ts Ht _ IHts]; [done|]. simpl. by rewrite Ht, IHts.
Qed.

Lemma skeleton_suites t t' : skeleton t' = skeleton t → suites t' = suites t.
Proof. intros H. by rewrite <-(suites_skeleton t'), H, suites_skeleton. Qed.

Lemma skeleton_length_leaves t t' :
  skeleton t' = skeleton t → length (leaves t') = length (leaves t).
Proof.
  intros H. by rewrite <-(length_leaves_skeleton t'), H, length_leaves_skeleton.
Qed.

Lemma skeleton_height t t' : skeleton t' = skeleton t → height t' = height t.
Proof. intros H. by rewrite <-(height_skeleton t'), H, height_skeleton. Qed.

(** ** [decorate] on a stored tree *)

Lemma concat_map_suites_skeleton ts ts' :
  map skeleton ts' = map skeleton ts →
  concat (map suites ts') = concat (map suites ts).
Proof.
  revert ts'. induction ts as [|t ts IH]; intros [|t' ts'] Heq; try done.
  simpl in *. injection Heq as Ht Hts. by rewrite (skeleton_suites _ _ Ht), (IH _ Hts).
Qed.

Lemma rebuild_children d h0 s fuel ts :
  Forall (λ t, ∀ σ, decorable d h0 t σ → decorated d fuel t σ) ts →
  ∀ done σ,
    st_heap σ !! s = Some (Suite (map root done)) →
    Forall (λ t, models (st_heap σ) t = true) done →
    Forall (λ t, models (st_heap σ) t = true) ts →
    NoDup (s :: concat (map suites done) ++ concat (map suites ts)) →
    keepsLeaves h0 (st_heap σ) →
    wraps d h0 (concat (map leaves ts)) →
    ∃ ts' h',
      rebuild (decorate d fuel) s (map root ts) σ
        = Some (DState h' (st_calls σ ++
                  zip (concat (map leaves ts)) (concat (map leaves ts')))) ∧
      map skeleton ts' = map skeleton ts ∧
      h' !! s = Some (Suite (map root (done ++ ts'))) ∧
      Forall (λ t, models h' t = true) (done ++ ts') ∧
      preserved (s :: concat (map suites ts)) (st_heap σ) h'.
Proof.
  intros Hall. induction Hall as [|t ts Ht _ IH];
    intros done σ Hs Hdone Hts Hnd Hkeep Hwr.
  - exists [], (st_heap σ). rewrite !app_nil_r. destruct σ as [h calls].
    simpl in *. rewrite ?app_nil_r. repeat split; auto using preserved_refl.
  - simpl in Hnd. apply NoDup_cons in Hnd as [Hsn Hnd].
    apply not_elem_of_app in Hsn as [HsD Hsn].
    apply not_elem_of_app in Hsn as [Hst HsR].
    apply NoDup_app in Hnd as (HndD & HDtR & Hnd).
    apply NoDup_app in Hnd as (Hndt & HtR & HndR).
    apply Forall_cons in Hts as [Hmt Hts].
    destruct (Ht σ) as (t1 & h1 & Hdec & Hsk & Hm1 & Hp1).
    { repeat split; auto. intros l h Hl. apply Hwr. simpl.
      apply elem_of_app. by left. }
    pose proof (skeleton_suites _ _ Hsk) as Hsu.
    pose proof (skeleton_length_leaves _ _ Hsk) as Hlen.
    assert (Hs1 : h1 !! s = Some (Suite (map root done))) by (apply Hp1; auto).
    set (h2 := <[s := Suite (map root done ++ [root t1])]> h1).
    assert (Hp2 : preserved [s] h1 h2) by (by eapply preserved_insert_suite).
    assert (Hp12 : preserved (s :: suites t) (st_heap σ) h2).
    { eapply preserved_trans; eapply preserved_mono; [|exact Hp1| |exact Hp2];
        intros k Hk; [by right|]. apply list_elem_of_singleton in Hk. subst. by left. }
    destruct (IH (done ++ [t1])
                (DState h2 (st_calls σ ++ zip (leaves t) (leaves t1))))
      as (ts' & h' & Hre & Hsk' & Hs' & Hall' & Hp').
    { simpl. unfold h2. by rewrite lookup_insert_eq, map_app. }
    { simpl. apply Forall_app. split.
      - eapply Forall_models_preserved; [exact Hdone|exact Hp12|].
        intros k Hk [->|Hk']%elem_of_cons; [done|].
        eapply HDtR; [exact Hk|]. apply elem_of_app. by left.
      - apply Forall_singleton.
        eapply models_preserved; [exact Hm1|exact Hp2|].
        rewrite Hsu. intros k Hk ->%list_elem_of_singleton. done. }
    { simpl. eapply Forall_models_preserved; [exact Hts|exact Hp12|].
      intros k Hk [->|Hk']%elem_of_cons; [done|]. by eapply HtR. }
    { simpl. rewrite map_app, concat_app. simpl. rewrite app_nil_r, Hsu.
      apply NoDup_cons. split.
      - rewrite !not_elem_of_app. auto.
      - rewrite <-app_assoc. apply NoDup_app. split; [done|]. split; [done|].
        by apply NoDup_app. }
    { simpl. eapply keepsLeaves_trans; [exact Hkeep|].
      by eapply preserved_keepsLeaves. }
    { intros l h Hl. apply Hwr. simpl. apply elem_of_app. by right. }
    exists (t1 :: ts'), h'. simpl in *. rewrite Hdec. simpl.
    unfold addTest. rewrite Hs1. fold h2. rewrite Hre.
    repeat split.
    + rewrite zip_with_app by done. by rewrite app_assoc.
    + by rewrite Hsk, Hsk'.
    + by rewrite <-app_assoc in Hs'.
    + by rewrite <-app_assoc in Hall'.
    + eapply preserved_trans; eapply preserved_mono; [|exact Hp12| |exact Hp'].
      * intros k [->|Hk]%elem_of_cons; [by left|]. right. apply elem_of_app. by left.
      * intros k [->|Hk]%elem_of_cons; [by left|]. right. apply elem_of_app. by right.
Qed.

Lemma decorate_tree d h0 t :
  ∀ fuel σ, height t < fuel → decorable d h0 t σ → decorated d fuel t σ.
Proof.
  induction t as [l|s ts IH] using tree_ind;
    intros [|fuel] σ Hfuel (Hm & Hnd & Hkeep & Hwr); try lia.
  - apply models_leaf in Hm as (o & Ho & Hleaf).
    destruct (Hwr l (st_heap σ)) as (r & h' & Hd & Hsub & Hr);
      [by apply list_elem_of_singleton|done|].
    exists (TLeaf r), h'. simpl. rewrite Ho. unfold callDecorator. rewrite Hd.
    repeat split.
    + by destruct o.
    + by apply models_leaf.
    + by apply preserved_subseteq.
  - apply models_suite in Hm as [Hs Hall]. simpl in Hfuel.
    set (σ1 := DState (_clearSuite s (st_heap σ)) (st_calls σ)).
    assert (Hp1 : preserved [s] (st_heap σ) (st_heap σ1))
      by (by eapply preserved_insert_suite).
    simpl in Hnd. pose proof Hnd as [Hsn _]%NoDup_cons.
    destruct (rebuild_children d h0 s fuel ts) with (done := @nil tree) (σ := σ1)
      as (ts' & h' & Hre & Hsk & Hs' & Hall' & Hp').
    { rewrite Forall_forall in IH. apply Forall_forall. intros t Ht σ' Hd.
      apply IH; [done| |done]. apply height_child in Ht. lia. }
    { simpl. unfold _clearSuite. by rewrite lookup_insert_eq. }
    { constructor. }
    { eapply Forall_models_preserved; [exact Hall|exact Hp1|].
      intros k Hk ->%list_elem_of_singleton. done. }
    { done. }
    { eapply keepsLeaves_trans; [exact Hkeep|]. by eapply preserved_keepsLeaves. }
    { done. }
    exists (TSuite s ts'), h'. simpl. rewrite Hs. fold σ1. rewrite Hre.
    repeat split.
    + by rewrite Hsk.
    + apply models_suite. by split.
    + eapply preserved_trans; [|exact Hp'].
      eapply preserved_mono; [|exact Hp1].
      intros k ->%list_elem_of_singleton. by left.
Qed.

(** ** Running: the drain loop and the loop over the children *)

Lemma addError_attribute raises result test e w :
  addError raises result test e w =
    match raises (attribute result test) e w with
    | Some x => Raises x (recordAddError (attribute result test) e w)
    | None => Returns tt (recordAddError (attribute result test) e w)
    end.
Proof. revert test. induction result as [|original IH c]; intros test; [done|]. apply IH. Qed.


(** The drain loop, when a call of [addError] raises: the collector of logged
    errors is as it was. *)
Lemma drain_raises raises result test errors :
  ∀ w x w',
    forEach errors (λ error, addError raises result test error) w = Raises x w' →
    _logObserver w' = _logObserver w.
Proof.
  induction errors as [|e errors IH]; intros w x w' Hrun; simpl in *; [done|].
  unfold bind in Hrun. rewrite addError_attribute in Hrun.
  destruct (raises _ e w).
  - by injection Hrun as _ <-.
  - by apply IH in Hrun.
Qed.


(** The drain loop returns when no call of [addError] raises. *)
Lemma drain_total raises result test errors :
  (∀ e w, e ∈ errors → raises (attribute result test) e w = None) →
  ∀ w, ∃ w', forEach errors (λ error, addError raises result test error) w
             = Returns tt w'.
Proof.
  induction errors as [|e errors IH]; intros Hnone w; simpl; [by eexists|].
  unfold bind. rewrite addError_attribute, Hnone by (by left).
  apply IH. intros e' w' He'. apply Hnone. by right.
Qed.

(** [_ForceGarbageCollectionDecorator.run], step by step. *)
Lemma forced_collection_run_steps h gc_collect run raises self result w :
  _ForceGarbageCollectionDecorator_run h gc_collect run raises self result w =
    match TestDecorator_run h run self result (gc_collect w) with
    | Raises x w2 => Raises x w2
    | Returns _ w2 =>
        let w4 := gc_collect (onObserver _add w2) in
        match forEach (getErrors (_logObserver w4))
                (λ error, addError raises result (TestObject self) error) w4 with
        | Raises x w5 => Raises x w5
        | Returns _ w5 =>
            Returns PyNone (onObserver _remove (onObserver flushErrors w5))
        end
    end.
Proof.
  unfold _ForceGarbageCollectionDecorator_run, bind, modify, gets, ret.
  destruct (TestDecorator_run _ _ _ _ _); [|done].
  by destruct (forEach _ _ _).
Qed.

(** The children before a child that is reached all ran, and the loop goes on
    from the world they left. *)
Lemma runTests_app call pre rest result :
  ∀ w wk,
    runTests call pre result w = (pre, Returns tt wk) →
    runTests call (pre ++ rest) result w =
      (pre ++ fst (runTests call rest result wk),
       snd (runTests call rest result wk)).
Proof.
  induction pre as [|t pre IH]; intros w wk Hpre; simpl in *.
  - injection Hpre as <-. by destruct (runTests call rest result w).
  - destruct (shouldStop w); [done|].
    destruct (call t result w) as [v w1|x w1]; [|done].
    destruct (runTests call pre result w1) as [invoked out] eqn:Hrec.
    injection Hpre as -> ->. by rewrite (IH _ _ Hrec).
Qed.

(** The children invoked are the first ones; when the loop returns with
    children left, [shouldStop] was true. *)
Lemma runTests_prefix call tests result :
  ∀ w, ∃ skipped,
    tests = fst (runTests call tests result w) ++ skipped ∧
    ∀ v w', snd (runTests call tests result w) = Returns v w' →
            skipped ≠ [] → shouldStop w' = true.
Proof.
  induction tests as [|t tests IH]; intros w; simpl.
  - exists []. split; [done|]. by intros v w' _ Hne.
  - destruct (shouldStop w) eqn:Hstop.
    + exists (t :: tests). split; [done|]. intros v w' Hout _. simpl in Hout.
      by injection Hout as _ <-.
    + destruct (call t result w) as [v w1|x w1].
      * destruct (IH w1) as (skipped & Heq & Hskip).
        destruct (runTests call tests result w1) as [invoked out].
        exists skipped. simpl in *. split; [by f_equal|done].
      * exists tests. split; [done|]. by intros v w' Hout.
Qed.

(** * Part III. The properties of the module *)

Lemma map_fst_zip {A B} (xs : list A) (ys : list B) :
  length xs = length ys → map fst (zip xs ys) = xs.
Proof.
  revert ys. induction xs as [|x xs IH]; intros [|y ys] Hlen; try done.
  simpl in *. f_equal. apply IH. lia.
Qed.

Lemma classAsDecorator_wraps class h0 L :
  forallb (wrappable h0) L = true → wraps (classAsDecorator class) h0 L.
Proof.
  intros HL l h Hl Hkeep. rewrite forallb_Forall, Forall_forall in HL.
  specialize (HL l Hl). unfold wrappable in HL.
  destruct (h0 !! l) as [o|] eqn:Ho; [|done].
  apply andb_true_iff in HL as [Hleaf%negb_true_iff Hok].
  pose proof (Hkeep _ _ Ho Hleaf) as Ho'.
  unfold classAsDecorator, construct. rewrite Ho', Hok.
  eexists _, _. split; [done|]. split.
  - apply insert_subseteq, not_elem_of_dom, is_fresh.
  - eexists. by rewrite lookup_insert_eq.
Qed.

(** ** The model on examples *)

Example decorate_example :
  callsAndLeaves
    (decorate (classAsDecorator TestDecorator) 3 0 (DState exampleStore []))
  = Some (0, [(1, 4); (3, 5)], Some [4; 5]).
Proof. vm_compute. reflexivity. Qed.

(** Decorating twice wraps outermost-last. *)
Example decorate_twice_example :
  match decorate (classAsDecorator TestDecorator) 3 0
          (DState exampleStore []) with
  | Some (test, σ) =>
      match decorate (classAsDecorator _ForceGarbageCollectionDecorator)
              3 test σ with
      | Some (test', σ') =>
          (test', st_heap σ' !! 6, st_heap σ' !! 4, iterateTests 3 (st_heap σ') 0)
      | None => (0, None, None, None)
      end
  | None => (0, None, None, None)
  end
  = (0, Some (Decorator _ForceGarbageCollectionDecorator 4),
     Some (Decorator TestDecorator 1), Some [6; 7]).
Proof. vm_compute. reflexivity. Qed.

(** A nested suite held twice is rebuilt twice, in place: its leaf ends up
    decorated twice. The statements below are about suites that hold each
    nested suite once. *)
Example decorate_shared_suite_example :
  callsAndLeaves
    (decorate (classAsDecorator TestDecorator) 3 0 (DState sharedStore []))
  = Some (0, [(3, 4); (4, 5)], Some [5; 5]).
Proof. vm_compute. reflexivity. Qed.

Example forced_collection_example :
  _ForceGarbageCollectionDecorator_run decoratedStore sweepLoggingTwo
    passingRun neverRaises 1 Collector idleWorld
  = Returns PyNone
      (World {| capturing := false; captured := [] |} false
         [(TestObject 1, "first"); (TestObject 1, "second")]).
Proof. reflexivity. Qed.

(** A later run whose sweeps log nothing adds no error. *)
Example forced_collection_no_leak_example :
  match _ForceGarbageCollectionDecorator_run decoratedStore sweepLoggingTwo
          passingRun neverRaises 1 Collector idleWorld with
  | Returns _ w =>
      match _ForceGarbageCollectionDecorator_run decoratedStore (λ w, w)
              passingRun neverRaises 1 Collector w with
      | Returns _ w' => Some (length (addErrorCalls w'))
      | Raises _ _ => None
      end
  | Raises _ _ => None
  end = Some 2.
Proof. reflexivity. Qed.

(** What [decorate] does on a suite whose store holds a tree. *)
Lemma decorate_suite d h s ts calls fuel :
  models h (TSuite s ts) = true →
  NoDup (suites (TSuite s ts)) →
  wraps d h (leaves (TSuite s ts)) →
  height (TSuite s ts) < fuel →
  ∃ ts' h',
    decorate d fuel s (DState h calls)
      = Some (s, DState h' (calls ++
                 zip (leaves (TSuite s ts)) (leaves (TSuite s ts')))) ∧
    skeleton (TSuite s ts') = skeleton (TSuite s ts) ∧
    models h' (TSuite s ts') = true.
Proof.
  intros Hm Hnd Hwr Hfuel.
  destruct (decorate_tree d h (TSuite s ts) fuel (DState h calls))
    as (t' & h' & Hdec & Hsk & Hm' & _); [done| |].
  { repeat split; try done. by intros k o Hk _. }
  destruct t' as [l|s' ts']; [done|]. injection Hsk as -> Hsk.
  exists ts', h'. simpl in *. by rewrite Hsk.
Qed.

(** C3: for a suite [S] whose store holds a tree and a decorator that wraps
    its leaves, [decorate(S, d)] returns [S] itself, and [iterateTests] yields
    after the decoration as many leaves as it did before, the k-th leaf
    yielded after being the object the decorator returned for the k-th leaf
    yielded before. *)
Theorem decorate_returns_same_suite_same_leaf_order
    (d : decorator) (h : heap) (s : loc) (ts : list tree)
    (calls : list (loc * loc)) (fuel : nat) :
  models h (TSuite s ts) = true →
  NoDup (suites (TSuite s ts)) →
  wraps d h (leaves (TSuite s ts)) →
  height (TSuite s ts) < fuel →
  ∃ h' before after,
    decorate d fuel s (DState h calls)
      = Some (s, DState h' (calls ++ zip before after)) ∧
    iterateTests fuel h s = Some before ∧
    iterateTests fuel h' s = Some after ∧
    length after = length before.
Proof.
  intros Hm Hnd Hwr Hfuel.
  destruct (decorate_suite d h s ts calls fuel) as (ts' & h' & Hdec & Hsk & Hm');
    try done.
  exists h', (leaves (TSuite s ts)), (leaves (TSuite s ts')).
  split; [done|]. split; [|split].
  - by apply (iterateTests_tree h (TSuite s ts)).
  - apply (iterateTests_tree h' (TSuite s ts')); [|done].
    by rewrite (skeleton_height _ _ Hsk).
  - by apply skeleton_length_leaves.
Qed.

Lemma decorate_returns_same_suite_same_leaf_order_witness :
  ∃ h' before after,
    decorate (classAsDecorator _ForceGarbageCollectionDecorator) 3 0
        (DState exampleStore [])
      = Some (0, DState h' ([] ++ zip before after)) ∧
    iterateTests 3 exampleStore 0 = Some before ∧
    iterateTests 3 h' 0 = Some after ∧
    length after = length before.
Proof.
  apply (decorate_returns_same_suite_same_leaf_order
           (classAsDecorator _ForceGarbageCollectionDecorator)
           exampleStore 0 [TLeaf 1; TSuite 2 [TLeaf 3]] [] 3).
  - vm_compute. reflexivity.
  - apply (bool_decide_unpack _). vm_compute. exact I.
  - apply classAsDecorator_wraps. vm_compute. reflexivity.
  - vm_compute. lia.
Defined.

(** C5: [decorate] calls the decorator once for every leaf of the tree, from
    left to right, and on nothing else: no argument of a call is a suite
    node. On an empty suite the decorator is not called and the store is
    unchanged. *)
Theorem decorate_calls_decorator_once_per_leaf
    (d : decorator) (h : heap) (s : loc) (ts : list tree)
    (calls : list (loc * loc)) (fuel : nat) :
  models h (TSuite s ts) = true →
  NoDup (suites (TSuite s ts)) →
  wraps d h (leaves (TSuite s ts)) →
  height (TSuite s ts) < fuel →
  ∃ h' newcalls,
    decorate d fuel s (DState h calls)
      = Some (s, DState h' (calls ++ newcalls)) ∧
    map fst newcalls = leaves (TSuite s ts) ∧
    length newcalls = length (leaves (TSuite s ts)) ∧
    (∀ l, l ∈ map fst newcalls →
          isLeafAt h l ∧ l ∉ suites (TSuite s ts)) ∧
    (ts = [] → newcalls = [] ∧ h' = h).
Proof.
  intros Hm Hnd Hwr Hfuel.
  destruct (decorate_suite d h s ts calls fuel) as (ts' & h' & Hdec & Hsk & Hm');
    try done.
  pose proof (skeleton_length_leaves _ _ Hsk) as Hlen.
  exists h', (zip (leaves (TSuite s ts)) (leaves (TSuite s ts'))).
  assert (Hfst : map fst (zip (leaves (TSuite s ts)) (leaves (TSuite s ts')))
                 = leaves (TSuite s ts)) by (by apply map_fst_zip).
  split; [done|]. split; [done|]. split; [|split].
  - by rewrite <-Hfst at 2; rewrite length_map.
  - rewrite Hfst. intros l Hl.
    pose proof (models_leaves _ _ _ Hm Hl) as Hleaf. split; [done|].
    intros Hin. destruct (models_suites _ _ _ Hm Hin) as (tests & Htests).
    destruct Hleaf as (o & Ho & Hns). rewrite Htests in Ho.
    injection Ho as <-. done.
  - intros ->. split; [done|].
    destruct fuel as [|fuel]; [lia|]. simpl in Hdec.
    apply models_suite in Hm as [Hs _]. simpl in Hs. rewrite Hs in Hdec.
    simpl in Hdec. injection Hdec as <-. unfold _clearSuite.
    by apply insert_id.
Qed.

Lemma decorate_calls_decorator_once_per_leaf_witness :
  ∃ h' newcalls,
    decorate (classAsDecorator TestDecorator) 3 0 (DState exampleStore [])
      = Some (0, DState h' ([] ++ newcalls)) ∧
    map fst newcalls = leaves exampleTree ∧
    length newcalls = length (leaves exampleTree) ∧
    (∀ l, l ∈ map fst newcalls →
          isLeafAt exampleStore l ∧ l ∉ suites exampleTree) ∧
    ([TLeaf 1; TSuite 2 [TLeaf 3]] = [] → newcalls = [] ∧ h' = exampleStore).
Proof.
  apply (decorate_calls_decorator_once_per_leaf
           (classAsDecorator TestDecorator)
           exampleStore 0 [TLeaf 1; TSuite 2 [TLeaf 3]] [] 3).
  - vm_compute. reflexivity.
  - apply (bool_decide_unpack _). vm_compute. exact I.
  - apply classAsDecorator_wraps. vm_compute. reflexivity.
  - vm_compute. lia.
Defined.

(** C6: on a non-iterable object [L], [iterateTests] yields [L] and nothing
    else; on the root of a stored tree it yields the leaves of the tree from
    left to right, none of which is a suite. *)
Theorem iterateTests_yields_the_leaves (h : heap) (fuel : nat) :
  (∀ L, isLeafAt h L → iterateTests (S fuel) h L = Some [L]) ∧
  (∀ t, models h t = true → height t < fuel →
        iterateTests fuel h (root t) = Some (leaves t) ∧
        ∀ l, l ∈ leaves t → isLeafAt h l).
Proof.
  split.
  - intros L HL. by apply iterateTests_leaf.
  - intros t Hm Hfuel. split; [by apply iterateTests_tree|].
    intros l Hl. by eapply models_leaves.
Qed.

Lemma iterateTests_yields_the_leaves_witness :
  iterateTests 1 exampleStore 3 = Some [3] ∧
  iterateTests 3 exampleStore 0 = Some [1; 3].
Proof.
  split.
  - apply (proj1 (iterateTests_yields_the_leaves exampleStore 0) 3).
    exists (Case PyUnitCase). split; reflexivity.
  - apply (proj2 (iterateTests_yields_the_leaves exampleStore 3) exampleTree).
    + vm_compute. reflexivity.
    + vm_compute. lia.
Defined.

(** C2: constructing a decorator on a value that neither provides the
    contract nor has a registered adapter fails with [UnadaptableTestError]:
    no decorator object comes out of the construction. *)
Theorem construct_unadaptable_raises
    (class : cls) (v : loc) (h : heap) (o : obj) :
  h !! v = Some o →
  providesITestCase o = false →
  adaptable o = false →
  construct class v h = inl UnadaptableTestError ∧
  ∀ r, construct class v h ≠ inr r.
Proof.
  intros Hv Hp Ha. unfold construct. rewrite Hv, Hp, Ha. by split.
Qed.

Lemma construct_unadaptable_raises_witness :
  construct TestDecorator 7 strayStore = inl UnadaptableTestError ∧
  ∀ r, construct TestDecorator 7 strayStore ≠ inr r.
Proof.
  apply (construct_unadaptable_raises TestDecorator 7 strayStore Other);
    reflexivity.
Defined.

(** C8: the [id()] of a broken-identity adapter is the short description of
    the wrapped case when there is one, and the [id()] of the wrapped case
    otherwise. *)
Theorem brokenID_id_prefers_short_description
    (shortDescription : loc → option string) (id : loc → string)
    (h : heap) (self orig : loc) :
  h !! self = Some (Decorator _BrokenIDTestCaseAdapter orig) →
  (∀ description, shortDescription orig = Some description →
     _BrokenIDTestCaseAdapter_id shortDescription id h self
       = Some description) ∧
  (shortDescription orig = None →
     _BrokenIDTestCaseAdapter_id shortDescription id h self
       = Some (id orig)).
Proof.
  intros Hself. unfold _BrokenIDTestCaseAdapter_id. rewrite Hself.
  split; [intros description ->|intros ->]; done.
Qed.

Lemma brokenID_id_prefers_short_description_witness :
  _BrokenIDTestCaseAdapter_id (λ _, Some "adds two numbers") (λ _, "runTest")
      adaptedStore 1 = Some "adds two numbers" ∧
  _BrokenIDTestCaseAdapter_id (λ _, None) (λ _, "runTest")
      adaptedStore 1 = Some "runTest".
Proof.
  split.
  - apply (proj1 (brokenID_id_prefers_short_description
                    (λ _, Some "adds two numbers") (λ _, "runTest")
                    adaptedStore 1 0 eq_refl)).
    reflexivity.
  - apply (proj2 (brokenID_id_prefers_short_description
                    (λ _, None) (λ _, "runTest") adaptedStore 1 0 eq_refl)).
    reflexivity.
Defined.

(** C4: [TestSuite.run] invokes the children in the order of [_tests], the
    ones it invokes being the first ones; when it returns it returns the
    result, and if children are left then [shouldStop] was true. A child
    reached with [shouldStop] true is not invoked, nor is any later one, and
    the run returns; a child reached with [shouldStop] false is invoked. In
    particular, when the first child sets [shouldStop] only that child
    runs. *)
Theorem TestSuite_run_stops_on_shouldStop_only
    (h : heap) (call : loc → result → M pyvalue)
    (self : loc) (tests : list loc) (result : result) (w : world) :
  h !! self = Some (Suite tests) →
  (∃ invoked out skipped,
     TestSuite_run h call self result w = (invoked, out) ∧
     tests = invoked ++ skipped ∧
     ∀ v w', out = Returns v w' →
             v = PyResult result ∧ (skipped ≠ [] → shouldStop w' = true)) ∧
  (∀ pre child post wk,
     tests = pre ++ child :: post →
     runTests call pre result w = (pre, Returns tt wk) →
     (shouldStop wk = true →
        TestSuite_run h call self result w
          = (pre, Returns (PyResult result) wk)) ∧
     (shouldStop wk = false →
        ∃ invoked out,
          TestSuite_run h call self result w
            = (pre ++ child :: invoked, out))) ∧
  (∀ first second rest v w1,
     tests = first :: second :: rest →
     shouldStop w = false →
     call first result w = Returns v w1 →
     shouldStop w1 = true →
     TestSuite_run h call self result w
       = ([first], Returns (PyResult result) w1)).
Proof.
  intros Hself. unfold TestSuite_run. rewrite Hself. split; [|split].
  - destruct (runTests_prefix call tests result w) as (skipped & Heq & Hskip).
    destruct (runTests call tests result w) as [invoked out].
    eexists _, _, skipped. split; [done|]. split; [done|].
    intros v w' Hout. simpl in *. destruct out as [u w''|x w'']; [|done].
    injection Hout as <- <-. split; [done|]. by apply (Hskip u).
  - intros pre child post wk -> Hpre.
    rewrite (runTests_app _ _ _ _ _ _ Hpre). simpl.
    split; intros Hstop; rewrite Hstop.
    + simpl. by rewrite app_nil_r.
    + destruct (call child result wk) as [v w1|x w1].
      * destruct (runTests call post result w1) as [invoked out].
        simpl. by eexists _, _.
      * simpl. by eexists _, _.
  - intros first second rest v w1 -> Hstop Hcall Hstop1. simpl.
    by rewrite Hstop, Hcall, Hstop1.
Qed.

Lemma TestSuite_run_stops_on_shouldStop_only_witness :
  TestSuite_run exampleStore stoppingCall 0 Collector idleWorld
    = ([1], Returns (PyResult Collector) (World (_logObserver idleWorld) true [])).
Proof.
  apply (proj2 (proj2 (TestSuite_run_stops_on_shouldStop_only
                         exampleStore stoppingCall 0 [1; 2] Collector
                         idleWorld eq_refl))
           1 2 [] PyNone);
    reflexivity.
Defined.

(** C9: [__call__] of a decorator is its [run]; the default [run] hands to
    the [run] of the wrapped test the result adapted with the class of the
    decorator itself, so that what the wrapped test reports about a test
    reaches the result as that test wrapped by this class. *)
Theorem TestDecorator_call_is_run_with_adapted_result
    (h : heap) (gc_collect : world → world)
    (run : loc → result → M pyvalue)
    (raises : testref → error → world → option exn)
    (self : loc) (class : cls) (orig : loc) (result : result) :
  h !! self = Some (Decorator class orig) →
  (∀ w, TestDecorator___call__ h gc_collect run raises self result w
        = run_method h gc_collect run raises class self result w) ∧
  (∀ w, TestDecorator_run h run self result w
        = run orig (_AdaptedReporter result class) w) ∧
  (class ≠ _ForceGarbageCollectionDecorator →
   ∀ w, TestDecorator___call__ h gc_collect run raises self result w
        = run orig (_AdaptedReporter result class) w) ∧
  (∀ test e w,
     addError raises (_AdaptedReporter result class) test e w
       = addError raises result (Adapted class test) e w).
Proof.
  intros Hself. unfold TestDecorator___call__, TestDecorator_run.
  rewrite Hself. repeat split.
  intros Hclass w. destruct class; simpl; try done;
    unfold TestDecorator_run; by rewrite Hself.
Qed.

Lemma TestDecorator_call_is_run_with_adapted_result_witness :
  TestDecorator___call__ adaptedStore sweepLoggingTwo passingRun
    neverRaises 1 Collector idleWorld
  = passingRun 0 (_AdaptedReporter Collector _BrokenIDTestCaseAdapter)
      idleWorld.
Proof.
  apply (proj1 (proj2 (proj2 (TestDecorator_call_is_run_with_adapted_result
           adaptedStore sweepLoggingTwo passingRun neverRaises
           1 _BrokenIDTestCaseAdapter 0 Collector eq_refl)))).
  discriminate.
Defined.




(** C1, as the code has it: when the drain loop returns, the collector is
    flushed and then removed, so that the run ends with a collector that is
    empty and no longer captures. When a call of [addError] raises, the
    exception leaves [run] and the collector is as the second sweep left
    it. *)
Theorem forced_collection_cleans_up_when_drain_returns
    (h : heap) (gc_collect : world → world)
    (run : loc → result → M pyvalue)
    (raises : testref → error → world → option exn)
    (self : loc) (result : result) (w : world)
    (v : pyvalue) (w2 : world) :
  TestDecorator_run h run self result (gc_collect w) = Returns v w2 →
  let w4 := gc_collect (onObserver _add w2) in
  let drain :=
    forEach (getErrors (_logObserver w4))
      (λ error, addError raises result (TestObject self) error) w4 in
  (∀ w5,
     drain = Returns tt w5 →
     let w' := onObserver _remove (onObserver flushErrors w5) in
     _ForceGarbageCollectionDecorator_run h gc_collect run raises
       self result w = Returns PyNone w' ∧
     capturing (_logObserver w') = false ∧
     captured (_logObserver w') = []) ∧
  (∀ x w5,
     drain = Raises x w5 →
     _ForceGarbageCollectionDecorator_run h gc_collect run raises
       self result w = Raises x w5 ∧
     _logObserver w5 = _logObserver w4).
Proof.
  intros Hrun w4 drain. split.
  - intros w5 Hdrain w'.
    rewrite forced_collection_run_steps, Hrun. simpl. fold w4. fold drain.
    by rewrite Hdrain.
  - intros x w5 Hdrain. split.
    + rewrite forced_collection_run_steps, Hrun. simpl. fold w4. fold drain.
      by rewrite Hdrain.
    + by apply drain_raises in Hdrain.
Qed.

Lemma forced_collection_cleans_up_when_drain_returns_witness :
  _ForceGarbageCollectionDecorator_run decoratedStore sweepLoggingTwo
    passingRun neverRaises 1 Collector idleWorld
  = Returns PyNone
      (World {| capturing := false; captured := [] |} false
         [(TestObject 1, "first"); (TestObject 1, "second")]) ∧
  capturing {| capturing := false; captured := [] |} = false ∧
  captured {| capturing := false; captured := [] |} = [].
Proof.
  apply (proj1 (forced_collection_cleans_up_when_drain_returns
                  decoratedStore sweepLoggingTwo passingRun neverRaises
                  1 Collector idleWorld (PyObject 0) idleWorld eq_refl)
           (World {| capturing := true; captured := ["first"; "second"] |}
              false [(TestObject 1, "first"); (TestObject 1, "second")])).
  reflexivity.
Defined.

(** C1, as stated, fails: when [addError] raises, the exception leaves
    [run] at once and the collector is left capturing, with the errors it
    holds. *)
Lemma forced_collection_cleanup_counterexample :
  ∃ x w',
    _ForceGarbageCollectionDecorator_run decoratedStore sweepLoggingTwo
      passingRun alwaysRaises 1 Collector idleWorld = Raises x w' ∧
    capturing (_logObserver w') = true ∧
    captured (_logObserver w') = ["first"; "second"].
Proof. eexists _, _. split; [reflexivity|]. by split. Qed.

(** C10: [_ForceGarbageCollectionDecorator.run] returns [None] whenever it
    returns, whatever the run of the wrapped test returned, and it returns
    when the wrapped run returns and no [addError] raises;
    [TestDecorator.run] returns what the run of the wrapped test returned;
    [TestSuite.run] returns the result it was given. *)
Theorem forced_collection_run_returns_None
    (h : heap) (gc_collect : world → world)
    (run call : loc → result → M pyvalue)
    (raises : testref → error → world → option exn)
    (self : loc) (result : result) (w : world) :
  (∀ r w',
     _ForceGarbageCollectionDecorator_run h gc_collect run raises
       self result w = Returns r w' → r = PyNone) ∧
  (∀ v w2,
     TestDecorator_run h run self result (gc_collect w) = Returns v w2 →
     (∀ t e w', raises t e w' = None) →
     ∃ w', _ForceGarbageCollectionDecorator_run h gc_collect run raises
             self result w = Returns PyNone w') ∧
  (∀ class orig v w',
     h !! self = Some (Decorator class orig) →
     run orig (_AdaptedReporter result class) w = Returns v w' →
     TestDecorator_run h run self result w = Returns v w') ∧
  (∀ r w', snd (TestSuite_run h call self result w) = Returns r w' →
           r = PyResult result).
Proof.
  split; [|split; [|split]].
  - intros r w'. rewrite forced_collection_run_steps.
    destruct (TestDecorator_run _ _ _ _ _) as [v w2|x w2]; [|done]. simpl.
    destruct (forEach _ _ _) as [u w5|x w5]; [|done]. by intros [= <- _].
  - intros v w2 Hrun Hnone. rewrite forced_collection_run_steps, Hrun. simpl.
    destruct (drain_total raises result (TestObject self)
                (getErrors (_logObserver (gc_collect (onObserver _add w2))))
                (λ e w' _, Hnone _ e w')
                (gc_collect (onObserver _add w2))) as (w5 & ->).
    by eexists.
  - intros class orig v w' Hself Hrun. unfold TestDecorator_run.
    by rewrite Hself.
  - intros r w'. unfold TestSuite_run.
    destruct (h !! self) as [[| tests | |]|]; try done.
    destruct (runTests call tests result w) as [invoked [u w''|x w'']];
      simpl; [|done].
    by intros [= <- _].
Qed.

Lemma forced_collection_run_returns_None_witness :
  (∃ w', _ForceGarbageCollectionDecorator_run decoratedStore sweepLoggingTwo
           passingRun neverRaises 1 Collector idleWorld = Returns PyNone w') ∧
  TestDecorator_run decoratedStore passingRun 1 Collector idleWorld
    = Returns (PyObject 0) idleWorld.
Proof.
  pose proof (forced_collection_run_returns_None
                decoratedStore sweepLoggingTwo passingRun passingRun
                neverRaises 1 Collector idleWorld) as (_ & Hnone & Hsame & _).
  split.
  - apply (Hnone (PyObject 0) idleWorld); reflexivity.
  - apply (Hsame _ForceGarbageCollectionDecorator 0); reflexivity.
Defined.

(** * Part IV. Further properties of the module *)

(** ** [decorate]: structure and frame *)

(** X1: [decorate] keeps the structure of the suite: afterwards the store
    holds, under the same suite, a tree with the same suites and the same
    branching. *)
Theorem decorate_preserves_branching_structure
    (d : decorator) (h : heap) (s : loc) (ts : list tree)
    (calls : list (loc * loc)) (fuel : nat) :
  models h (TSuite s ts) = true →
  NoDup (suites (TSuite s ts)) →
  wraps d h (leaves (TSuite s ts)) →
  height (TSuite s ts) < fuel →
  ∃ ts' h' calls',
    decorate d fuel s (DState h calls) = Some (s, DState h' calls') ∧
    skeleton (TSuite s ts') = skeleton (TSuite s ts) ∧
    models h' (TSuite s ts') = true.
Proof.
  intros Hm Hnd Hwr Hfuel.
  destruct (decorate_suite d h s ts calls fuel) as (ts' & h' & Hdec & Hsk & Hm');
    try done.
  by eexists ts', h', _.
Qed.

Lemma decorate_preserves_branching_structure_witness :
  ∃ ts' h' calls',
    decorate (classAsDecorator TestDecorator) 3 0 (DState exampleStore [])
      = Some (0, DState h' calls') ∧
    skeleton (TSuite 0 ts') = skeleton exampleTree ∧
    models h' (TSuite 0 ts') = true.
Proof.
  apply (decorate_preserves_branching_structure
           (classAsDecorator TestDecorator)
           exampleStore 0 [TLeaf 1; TSuite 2 [TLeaf 3]] [] 3).
  - vm_compute. reflexivity.
  - apply (bool_decide_unpack _). vm_compute. exact I.
  - apply classAsDecorator_wraps. vm_compute. reflexivity.
  - vm_compute. lia.
Defined.

(** X2: [decorate] modifies nothing but the suite objects of the tree it is
    given: every non-iterable object and every suite outside the tree is,
    afterwards, the object it was. *)
Theorem decorate_modifies_only_the_suites_of_the_tree
    (d : decorator) (h : heap) (s : loc) (ts : list tree)
    (calls : list (loc * loc)) (fuel : nat) :
  models h (TSuite s ts) = true →
  NoDup (suites (TSuite s ts)) →
  wraps d h (leaves (TSuite s ts)) →
  height (TSuite s ts) < fuel →
  ∃ r h' calls',
    decorate d fuel s (DState h calls) = Some (r, DState h' calls') ∧
    ∀ k o, h !! k = Some o →
           isSuite o = false ∨ k ∉ suites (TSuite s ts) →
           h' !! k = Some o.
Proof.
  intros Hm Hnd Hwr Hfuel.
  destruct (decorate_tree d h (TSuite s ts) fuel (DState h calls))
    as (t' & h' & Hdec & _ & _ & Hp); [done| |].
  { repeat split; try done. by intros k o Hk _. }
  by eexists _, h', _.
Qed.

Lemma decorate_modifies_only_the_suites_of_the_tree_witness :
  ∃ r h' calls',
    decorate (classAsDecorator TestDecorator) 3 2 (DState exampleStore [])
      = Some (r, DState h' calls') ∧
    ∀ k o, exampleStore !! k = Some o →
           isSuite o = false ∨ k ∉ suites (TSuite 2 [TLeaf 3]) →
           h' !! k = Some o.
Proof.
  apply (decorate_modifies_only_the_suites_of_the_tree
           (classAsDecorator TestDecorator)
           exampleStore 2 [TLeaf 3] [] 3).
  - vm_compute. reflexivity.
  - apply (bool_decide_unpack _). vm_compute. exact I.
  - apply classAsDecorator_wraps. vm_compute. reflexivity.
  - vm_compute. lia.
Defined.

(** ** A store holds one tree under a root, and no suite under itself *)

Lemma models_unique h t1 :
  ∀ t2, models h t1 = true → models h t2 = true → root t1 = root t2 →
        t1 = t2.
Proof.
  induction t1 as [l|s ts1 IH] using tree_ind; intros [l2|s2 ts2] Hm1 Hm2 Hr;
    simpl in Hr; subst.
  - done.
  - apply models_leaf in Hm1 as (o & Ho & Hleaf).
    apply models_suite in Hm2 as [Hs _]. rewrite Hs in Ho.
    by injection Ho as <-.
  - apply models_leaf in Hm2 as (o & Ho & Hleaf).
    apply models_suite in Hm1 as [Hs _]. rewrite Hs in Ho.
    by injection Ho as <-.
  - apply models_suite in Hm1 as [Hs1 Hall1].
    apply models_suite in Hm2 as [Hs2 Hall2].
    rewrite Hs1 in Hs2. injection Hs2 as Hroots. f_equal.
    clear Hs1. revert ts2 Hall2 Hroots.
    induction ts1 as [|t1 ts1 IHts]; intros [|t2 ts2] Hall2 Hroots; try done.
    apply Forall_cons in IH as [IHt IH], Hall1 as [Hm1 Hall1],
      Hall2 as [Hm2 Hall2].
    injection Hroots as Hr Hroots. f_equal; [by apply IHt|by apply IHts].
Qed.

Lemma suites_subtree h t s :
  models h t = true → s ∈ suites t →
  ∃ us, models h (TSuite s us) = true ∧ height (TSuite s us) ≤ height t.
Proof.
  induction t as [l|s' ts IH] using tree_ind; [by intros _ ?%elem_of_nil|].
  intros Hm Hin. simpl in Hin. apply elem_of_cons in Hin as [->|Hin].
  - by exists ts.
  - apply models_suite in Hm as [_ Hall].
    apply elem_of_concat_map in Hin as (t & Ht & Hin).
    rewrite !Forall_forall in IH, Hall.
    destruct (IH t Ht (Hall t Ht) Hin) as (us & Hus & Hh).
    exists us. split; [done|]. apply height_child in Ht. simpl in *. lia.
Qed.

Lemma models_acyclic h s ts :
  models h (TSuite s ts) = true → s ∉ concat (map suites ts).
Proof.
  intros Hm Hin. pose proof Hm as [_ Hall]%models_suite.
  apply elem_of_concat_map in Hin as (t & Ht & Hin).
  rewrite Forall_forall in Hall.
  destruct (suites_subtree h t s (Hall t Ht) Hin) as (us & Hus & Hh).
  assert (TSuite s us = TSuite s ts) as Heq by (by apply (models_unique h)).
  rewrite Heq in Hh. apply height_child in Ht. simpl in Hh. lia.
Qed.

(** ** [decorate] with a decorator that returns its argument *)

Lemma rebuild_same_children d h0 (h : heap) s tests fuel ts :
  h !! s = Some (Suite tests) →
  keepsLeaves h0 h →
  Forall (λ t, ∀ σ,
    models (st_heap σ) t = true → keepsLeaves h0 (st_heap σ) →
    decorate d fuel (root t) σ
      = Some (root t, DState (st_heap σ)
                        (st_calls σ ++ map (λ l, (l, l)) (leaves t)))) ts →
  Forall (λ t, models h t = true) ts →
  s ∉ concat (map suites ts) →
  ∀ pre calls,
    rebuild (decorate d fuel) s (map root ts)
        (DState (<[s := Suite pre]> h) calls)
      = Some (DState (<[s := Suite (pre ++ map root ts)]> h)
                (calls ++ map (λ l, (l, l)) (concat (map leaves ts)))).
Proof.
  intros Hs Hkeep IH. induction IH as [|t ts Ht _ IHts];
    intros Hall Hsn pre calls; simpl.
  - by rewrite !app_nil_r.
  - apply Forall_cons in Hall as [Hm Hall]. simpl in Hsn.
    apply not_elem_of_app in Hsn as [Hst Hsn].
    assert (Hp : preserved [s] h (<[s := Suite pre]> h))
      by (by eapply preserved_insert_suite).
    rewrite Ht; simpl.
    + unfold addTest. rewrite lookup_insert_eq, insert_insert_eq.
      rewrite (IHts Hall Hsn). by rewrite map_app, <-!app_assoc.
    + eapply models_preserved; [exact Hm|exact Hp|].
      intros k Hk ->%list_elem_of_singleton. done.
    + eapply keepsLeaves_trans; [exact Hkeep|]. by eapply preserved_keepsLeaves.
Qed.

Lemma decorate_same_tree d h0 t :
  (∀ l h1, l ∈ leaves t → keepsLeaves h0 h1 → d l h1 = Some (l, h1)) →
  ∀ fuel σ,
    height t < fuel → models (st_heap σ) t = true →
    keepsLeaves h0 (st_heap σ) →
    decorate d fuel (root t) σ
      = Some (root t, DState (st_heap σ)
                        (st_calls σ ++ map (λ l, (l, l)) (leaves t))).
Proof.
  induction t as [l|s ts IH] using tree_ind;
    intros Hd [|fuel] σ Hfuel Hm Hkeep; try lia.
  - apply models_leaf in Hm as (o & Ho & Hleaf). simpl. rewrite Ho.
    unfold callDecorator. rewrite Hd; [|by apply list_elem_of_singleton|done].
    by destruct o.
  - pose proof (models_acyclic _ _ _ Hm) as Hacyc.
    apply models_suite in Hm as [Hs Hall]. simpl in Hfuel. simpl.
    rewrite Hs. unfold _clearSuite.
    rewrite (rebuild_same_children d h0 (st_heap σ) s (map root ts) fuel ts);
      try done.
    + simpl. rewrite insert_id by done. by destruct σ.
    + rewrite Forall_forall in IH. apply Forall_forall. intros t Ht σ' Hm' Hk'.
      apply IH; try done.
      * intros l h1 Hl. apply Hd. simpl. apply elem_of_concat_map. eauto.
      * apply height_child in Ht. lia.
Qed.

(** X3: with a decorator that returns the test it is given, [decorate]
    clears and refills every suite with the children it had: it returns the
    suite and the store is what it was, whether or not nested suites are
    shared. The decorator is called once on every leaf. *)
Theorem decorate_with_identity_leaves_the_store_unchanged
    (d : decorator) (h : heap) (s : loc) (ts : list tree)
    (calls : list (loc * loc)) (fuel : nat) :
  models h (TSuite s ts) = true →
  (∀ l h1, l ∈ leaves (TSuite s ts) → keepsLeaves h h1 →
           d l h1 = Some (l, h1)) →
  height (TSuite s ts) < fuel →
  decorate d fuel s (DState h calls)
    = Some (s, DState h
                 (calls ++ map (λ l, (l, l)) (leaves (TSuite s ts)))).
Proof.
  intros Hm Hd Hfuel.
  apply (decorate_same_tree d h (TSuite s ts) Hd fuel (DState h calls));
    try done.
  by intros k o Hk _.
Qed.

Lemma decorate_with_identity_leaves_the_store_unchanged_witness :
  decorate sameTest 3 0 (DState sharedStore [])
    = Some (0, DState sharedStore ([] ++ [(3, 3); (3, 3)])).
Proof.
  apply (decorate_with_identity_leaves_the_store_unchanged
           sameTest sharedStore 0 [TSuite 2 [TLeaf 3]; TSuite 2 [TLeaf 3]]
           [] 3).
  - vm_compute. reflexivity.
  - reflexivity.
  - vm_compute. lia.
Defined.

(** ** What every call made by [decorate] established *)

Lemma grows_refl h : grows h h.
Proof. intros k o Hk. by exists o. Qed.

Lemma grows_trans h1 h2 h3 : grows h1 h2 → grows h2 h3 → grows h1 h3.
Proof.
  intros H12 H23 k o Hk. destruct (H12 k o Hk) as (o2 & Hk2 & Ho2).
  destruct (H23 k o2 Hk2) as (o3 & Hk3 & Ho3). exists o3. split; [done|].
  intros Hleaf. specialize (Ho2 Hleaf). subst o2. by apply Ho3.
Qed.

Lemma grows_insert_suite (h : heap) s tests tests' :
  h !! s = Some (Suite tests) → grows h (<[s := Suite tests']> h).
Proof.
  intros Hs k o Hk. destruct (decide (s = k)) as [<-|Hne].
  - rewrite Hs in Hk. injection Hk as <-. eexists.
    by rewrite lookup_insert_eq.
  - exists o. by rewrite lookup_insert_ne.
Qed.

Lemma grows_keepsLeaves h h' : grows h h' → keepsLeaves h h'.
Proof.
  intros Hg k o Hk Hleaf. destruct (Hg k o Hk) as (o' & Hk' & Ho').
  by rewrite Hk', Ho'.
Qed.

Lemma grows_fresh (h0 h : heap) : grows h0 h → h0 !! fresh (dom h) = None.
Proof.
  intros Hg. destruct (h0 !! fresh (dom h)) as [o|] eqn:Ho; [|done].
  destruct (Hg _ _ Ho) as (o' & Ho' & _).
  by apply mk_is_Some, elem_of_dom, is_fresh in Ho'.
Qed.

Lemma grows_insert_fresh (h : heap) o :
  grows h (<[fresh (dom h) := o]> h).
Proof.
  intros k o' Hk. exists o'. split; [|done].
  rewrite lookup_insert_ne; [done|]. intros <-.
  by apply mk_is_Some, elem_of_dom, is_fresh in Hk.
Qed.

Section CallsPost.
Variable d : decorator.
Variable h0 : heap.
Variable Post : loc → loc → heap → Prop.
Hypothesis d_post :
  ∀ l hc r h', grows h0 hc → d l hc = Some (r, h') →
               grows hc h' ∧ Post l r h'.
Hypothesis Post_stable :
  ∀ l r h1 h2, Post l r h1 → grows h1 h2 → Post l r h2.

Local Abbreviation callsPost := (callsMade Post).

Lemma callsPost_trans σ1 σ2 σ3 :
  callsPost σ1 σ2 → callsPost σ2 σ3 → callsPost σ1 σ3.
Proof.
  intros (Hg12 & n1 & Hc1 & Hp1) (Hg23 & n2 & Hc2 & Hp2). split.
  - by eapply grows_trans.
  - exists (n1 ++ n2). split; [by rewrite Hc2, Hc1, app_assoc|].
    apply Forall_app. split; [|done].
    eapply Forall_impl; [exact Hp1|]. intros c Hc. eapply Post_stable; [exact Hc|exact Hg23].
Qed.

Lemma rebuild_callsPost rec test :
  (∀ case σ r σ', grows h0 (st_heap σ) → rec case σ = Some (r, σ') →
                  callsPost σ σ') →
  ∀ tests σ σ',
    grows h0 (st_heap σ) → rebuild rec test tests σ = Some σ' →
    callsPost σ σ'.
Proof.
  intros Hrec tests. induction tests as [|case tests IH];
    intros σ σ' Hg Hre; simpl in Hre.
  - injection Hre as <-. split; [apply grows_refl|].
    exists []. by rewrite app_nil_r.
  - destruct (rec case σ) as [[r σ1]|] eqn:Hcase; [|done].
    pose proof (Hrec _ _ _ _ Hg Hcase) as Hp1.
    unfold addTest in Hre.
    destruct (st_heap σ1 !! test) as [[| tests1 | |]|] eqn:Ht; try done.
    assert (Hg2 : grows (st_heap σ1) (<[test := Suite (tests1 ++ [r])]> (st_heap σ1)))
      by (by eapply grows_insert_suite).
    eapply callsPost_trans; [exact Hp1|].
    eapply callsPost_trans; [|eapply IH; [|exact Hre]].
    + split; [exact Hg2|]. exists []. simpl. by rewrite app_nil_r.
    + simpl. eapply grows_trans; [exact Hg|].
      eapply grows_trans; [apply Hp1|exact Hg2].
Qed.

Lemma decorate_callsPost fuel :
  ∀ test σ r σ',
    grows h0 (st_heap σ) → decorate d fuel test σ = Some (r, σ') →
    callsPost σ σ'.
Proof.
  induction fuel as [|fuel IH]; intros test σ r σ' Hg Hdec; [done|].
  simpl in Hdec.
  assert (Hleaf : callDecorator d test σ = Some (r, σ') → callsPost σ σ').
  { unfold callDecorator. destruct (d test (st_heap σ)) as [[r' h']|] eqn:Hd;
      [|done].
    intros [= <- <-]. destruct (d_post _ _ _ _ Hg Hd) as [Hg' Hp].
    split; [done|]. exists [(test, r')]. split; [done|].
    by apply Forall_singleton. }
  destruct (st_heap σ !! test) as [[| tests | |]|] eqn:Ht; try done; auto.
  destruct (rebuild _ _ _ _) as [σ2|] eqn:Hre; [|done].
  injection Hdec as <- <-.
  assert (Hg1 : grows (st_heap σ) (_clearSuite test (st_heap σ)))
    by (by eapply grows_insert_suite).
  eapply callsPost_trans;
    [|eapply (rebuild_callsPost (decorate d fuel) test IH); [|exact Hre]].
  - split; [exact Hg1|]. exists []. simpl. by rewrite app_nil_r.
  - simpl. by eapply grows_trans.
Qed.
End CallsPost.

Lemma Forall_zip_Forall2 {A B} (P : A → B → Prop) (xs : list A) (ys : list B) :
  length xs = length ys →
  Forall (λ c, P c.1 c.2) (zip xs ys) → Forall2 P xs ys.
Proof.
  revert ys. induction xs as [|x xs IH]; intros [|y ys] Hlen Hall; try done.
  simpl in *. apply Forall_cons in Hall as [Hxy Hall].
  constructor; [done|]. apply IH; [lia|done].
Qed.

Lemma Forall2_compose {A B C} (P : A → B → Prop) (Q : B → C → Prop) xs ys zs :
  Forall2 P xs ys → Forall2 Q ys zs →
  Forall2 (λ x z, ∃ y, P x y ∧ Q y z) xs zs.
Proof.
  intros HP. revert zs. induction HP as [|x y xs ys Hxy _ IH];
    intros zs HQ; inversion HQ; subst; constructor; eauto.
Qed.

(** [decorate] on a suite with a decorator whose calls establish [Post]. *)
Lemma decorate_suite_post d (Post : loc → loc → heap → Prop) h s ts calls fuel :
  (∀ l hc r h', grows h hc → d l hc = Some (r, h') →
                grows hc h' ∧ Post l r h') →
  (∀ l r h1 h2, Post l r h1 → grows h1 h2 → Post l r h2) →
  models h (TSuite s ts) = true →
  NoDup (suites (TSuite s ts)) →
  wraps d h (leaves (TSuite s ts)) →
  height (TSuite s ts) < fuel →
  ∃ ts' h',
    decorate d fuel s (DState h calls)
      = Some (s, DState h' (calls ++
                 zip (leaves (TSuite s ts)) (leaves (TSuite s ts')))) ∧
    skeleton (TSuite s ts') = skeleton (TSuite s ts) ∧
    models h' (TSuite s ts') = true ∧
    grows h h' ∧
    Forall2 (λ l r, Post l r h')
      (leaves (TSuite s ts)) (leaves (TSuite s ts')).
Proof.
  intros Hd Hstable Hm Hnd Hwr Hfuel.
  destruct (decorate_suite d h s ts calls fuel) as (ts' & h' & Hdec & Hsk & Hm');
    try done.
  exists ts', h'. split; [done|]. split; [done|]. split; [done|].
  destruct (decorate_callsPost d h Post Hd Hstable fuel s (DState h calls)
              _ _ (grows_refl h) Hdec) as (Hg & new & Hnew & Hpost).
  simpl in *. apply app_inv_head in Hnew. subst new. split; [done|].
  apply Forall_zip_Forall2; [|done].
  symmetry. by apply (skeleton_length_leaves (TSuite s ts) (TSuite s ts')).
Qed.

(** ** [decorate] with a class, and with [itrial.ITestCase] *)

Lemma wrappedBy_stable class h0 h1 h2 l r :
  wrappedBy class h0 h1 l r → grows h1 h2 → wrappedBy class h0 h2 l r.
Proof.
  intros [Hr Hnew] Hg. split; [|done].
  destruct (Hg _ _ Hr) as (o' & Hr' & Ho'). by rewrite Hr', Ho'.
Qed.

Lemma classAsDecorator_post class h0 l hc r h' :
  grows h0 hc → classAsDecorator class l hc = Some (r, h') →
  grows hc h' ∧ wrappedBy class h0 h' l r.
Proof.
  intros Hg. unfold classAsDecorator, construct.
  destruct (hc !! l) as [o|]; [|done].
  destruct (providesITestCase o || adaptable o); [|done].
  intros [= <- <-]. split; [apply grows_insert_fresh|]. split.
  - by rewrite lookup_insert_eq.
  - by apply grows_fresh.
Qed.

Lemma ITestCase_wraps h0 L :
  forallb (wrappable h0) L = true → wraps ITestCase h0 L.
Proof.
  intros HL l h Hl Hkeep. rewrite forallb_Forall, Forall_forall in HL.
  specialize (HL l Hl). unfold wrappable in HL.
  destruct (h0 !! l) as [o|] eqn:Ho; [|done].
  apply andb_true_iff in HL as [Hleaf%negb_true_iff Hok].
  pose proof (Hkeep _ _ Ho Hleaf) as Ho'.
  unfold ITestCase. rewrite Ho'.
  destruct (providesITestCase o) eqn:Hprov.
  - exists l, h. split; [done|]. split; [done|]. by exists o.
  - simpl in Hok. destruct o as [kind| | |]; try done. simpl in Hok.
    apply bool_decide_eq_true in Hok as [class Hclass]. rewrite Hclass.
    eexists _, _. split; [done|]. split.
    + apply insert_subseteq, not_elem_of_dom, is_fresh.
    + eexists. by rewrite lookup_insert_eq.
Qed.

Lemma providesITestCase_leaf o : providesITestCase o = true → isSuite o = false.
Proof. by destruct o. Qed.

Lemma adaptedIn_stable h0 h1 h2 l r :
  adaptedIn h0 h1 l r → grows h1 h2 → adaptedIn h0 h2 l r.
Proof.
  intros [[-> (o & Ho & Hp)]|(kind & class & Hl & Hreg & Hw)] Hg.
  - left. split; [done|]. exists o. split; [|done].
    destruct (Hg _ _ Ho) as (o' & Ho' & Heq).
    by rewrite Ho', Heq by (by apply providesITestCase_leaf).
  - right. exists kind, class. split; [|split; [done|]].
    + destruct (Hg _ _ Hl) as (o' & Ho' & Heq). by rewrite Ho', Heq.
    + by eapply wrappedBy_stable.
Qed.

Lemma ITestCase_post h0 l hc r h' :
  grows h0 hc → ITestCase l hc = Some (r, h') →
  grows hc h' ∧ adaptedIn h0 h' l r.
Proof.
  intros Hg. unfold ITestCase. destruct (hc !! l) as [o|] eqn:Ho; [|done].
  destruct (providesITestCase o) eqn:Hprov.
  - intros [= <- <-]. split; [apply grows_refl|]. left. split; [done|].
    by exists o.
  - destruct o as [kind| | |]; try done.
    destruct (registeredAdapter kind) as [class|] eqn:Hreg; [|done].
    intros [= <- <-]. split; [apply grows_insert_fresh|].
    right. exists kind, class. split; [|split; [done|split]].
    + rewrite lookup_insert_ne; [done|]. intros <-.
      by apply mk_is_Some, elem_of_dom, is_fresh in Ho.
    + by rewrite lookup_insert_eq.
    + by apply grows_fresh.
Qed.

(** X4: [decorate] with a class replaces every leaf by a new instance of the
    class whose [_originalTest] is that leaf, in the order of the leaves; the
    leaves themselves stay in the store as they were. *)
Theorem decorate_with_class_wraps_every_leaf
    (class : cls) (h : heap) (s : loc) (ts : list tree)
    (calls : list (loc * loc)) (fuel : nat) :
  models h (TSuite s ts) = true →
  NoDup (suites (TSuite s ts)) →
  forallb (wrappable h) (leaves (TSuite s ts)) = true →
  height (TSuite s ts) < fuel →
  ∃ h' calls' before after,
    decorate (classAsDecorator class) fuel s (DState h calls)
      = Some (s, DState h' calls') ∧
    iterateTests fuel h s = Some before ∧
    iterateTests fuel h' s = Some after ∧
    Forall2 (wrappedBy class h h') before after ∧
    keepsLeaves h h'.
Proof.
  intros Hm Hnd Hwr Hfuel.
  destruct (decorate_suite_post (classAsDecorator class)
              (λ l r h', wrappedBy class h h' l r) h s ts calls fuel)
    as (ts' & h' & Hdec & Hsk & Hm' & Hg & Hpost); try done.
  { intros l hc r h'. apply classAsDecorator_post. }
  { intros l r h1 h2. apply wrappedBy_stable. }
  { by apply classAsDecorator_wraps. }
  eexists h', _, _, _. split; [done|]. split; [|split; [|split]].
  - by apply (iterateTests_tree h (TSuite s ts)).
  - apply (iterateTests_tree h' (TSuite s ts')); [|done].
    by rewrite (skeleton_height _ _ Hsk).
  - done.
  - by apply grows_keepsLeaves.
Qed.

Lemma decorate_with_class_wraps_every_leaf_witness :
  ∃ h' calls' before after,
    decorate (classAsDecorator _ForceGarbageCollectionDecorator) 3 0
        (DState exampleStore [])
      = Some (0, DState h' calls') ∧
    iterateTests 3 exampleStore 0 = Some before ∧
    iterateTests 3 h' 0 = Some after ∧
    Forall2 (wrappedBy _ForceGarbageCollectionDecorator exampleStore h')
      before after ∧
    keepsLeaves exampleStore h'.
Proof.
  apply (decorate_with_class_wraps_every_leaf
           _ForceGarbageCollectionDecorator
           exampleStore 0 [TLeaf 1; TSuite 2 [TLeaf 3]] [] 3).
  - vm_compute. reflexivity.
  - apply (bool_decide_unpack _). vm_compute. exact I.
  - vm_compute. reflexivity.
  - vm_compute. lia.
Defined.

Lemma Forall2_Forall_right {A B} (P : A → B → Prop) (Q : B → Prop) xs ys :
  Forall2 P xs ys → (∀ x y, P x y → Q y) → Forall Q ys.
Proof. intros HP HQ. induction HP; constructor; eauto. Qed.

Lemma Forall2_impl_left {A B} (P Q : A → B → Prop) (R : A → Prop) xs ys :
  Forall2 P xs ys → Forall R xs → (∀ x y, R x → P x y → Q x y) →
  Forall2 Q xs ys.
Proof.
  intros HP HR HQ. induction HP as [|x y xs ys Hxy _ IH]; [constructor|].
  apply Forall_cons in HR as [Hx HR]. constructor; auto.
Qed.

Lemma wrappedBy_wrappable class h0 h l r :
  wrappedBy class h0 h l r → wrappable h r = true.
Proof. intros [Hr _]. unfold wrappable. by rewrite Hr. Qed.

(** X5: decorating with one class and then with another wraps
    outermost-last: every leaf yielded afterwards is a new instance of the
    second class around a new instance of the first class around the leaf
    that was yielded at that place before. *)
Theorem decorate_twice_wraps_outermost_last
    (class1 class2 : cls) (h : heap) (s : loc) (ts : list tree)
    (calls : list (loc * loc)) (fuel : nat) :
  models h (TSuite s ts) = true →
  NoDup (suites (TSuite s ts)) →
  forallb (wrappable h) (leaves (TSuite s ts)) = true →
  height (TSuite s ts) < fuel →
  ∃ σ1 h2 calls2 before after,
    decorate (classAsDecorator class1) fuel s (DState h calls)
      = Some (s, σ1) ∧
    decorate (classAsDecorator class2) fuel s σ1
      = Some (s, DState h2 calls2) ∧
    iterateTests fuel h s = Some before ∧
    iterateTests fuel h2 s = Some after ∧
    Forall2 (λ l r, ∃ m, h2 !! r = Some (Decorator class2 m) ∧
                         h2 !! m = Some (Decorator class1 l))
      before after.
Proof.
  intros Hm Hnd Hwr Hfuel.
  destruct (decorate_suite_post (classAsDecorator class1)
              (λ l r h', wrappedBy class1 h h' l r) h s ts calls fuel)
    as (ts1 & h1 & Hdec1 & Hsk1 & Hm1 & Hg1 & Hpost1); try done.
  { intros l hc r h'. apply classAsDecorator_post. }
  { intros l r ha hb. apply wrappedBy_stable. }
  { by apply classAsDecorator_wraps. }
  destruct (decorate_suite_post (classAsDecorator class2)
              (λ l r h', wrappedBy class2 h1 h' l r) h1 s ts1
              (calls ++ zip (leaves (TSuite s ts)) (leaves (TSuite s ts1)))
              fuel)
    as (ts2 & h2 & Hdec2 & Hsk2 & Hm2 & Hg2 & Hpost2); try done.
  { intros l hc r h'. apply classAsDecorator_post. }
  { intros l r ha hb. apply wrappedBy_stable. }
  { by rewrite (skeleton_suites _ _ Hsk1). }
  { apply classAsDecorator_wraps, forallb_Forall.
    eapply Forall2_Forall_right; [exact Hpost1|].
    intros l r. apply wrappedBy_wrappable. }
  { by rewrite (skeleton_height _ _ Hsk1). }
  eexists _, h2, _, _, _. split; [exact Hdec1|]. split; [exact Hdec2|].
  split; [|split].
  - by apply (iterateTests_tree h (TSuite s ts)).
  - apply (iterateTests_tree h2 (TSuite s ts2)); [|done].
    by rewrite (skeleton_height _ _ Hsk2), (skeleton_height _ _ Hsk1).
  - eapply Forall2_impl; [eapply Forall2_compose; [exact Hpost1|exact Hpost2]|].
    intros l r (m & Hlm & [Hr _]). exists m. split; [done|].
    by destruct (wrappedBy_stable _ _ _ _ _ _ Hlm Hg2) as [Hm' _].
Qed.

Lemma decorate_twice_wraps_outermost_last_witness :
  ∃ σ1 h2 calls2 before after,
    decorate (classAsDecorator TestDecorator) 3 0 (DState exampleStore [])
      = Some (0, σ1) ∧
    decorate (classAsDecorator _ForceGarbageCollectionDecorator) 3 0 σ1
      = Some (0, DState h2 calls2) ∧
    iterateTests 3 exampleStore 0 = Some before ∧
    iterateTests 3 h2 0 = Some after ∧
    Forall2 (λ l r, ∃ m,
               h2 !! r = Some (Decorator _ForceGarbageCollectionDecorator m) ∧
               h2 !! m = Some (Decorator TestDecorator l))
      before after.
Proof.
  apply (decorate_twice_wraps_outermost_last
           TestDecorator _ForceGarbageCollectionDecorator
           exampleStore 0 [TLeaf 1; TSuite 2 [TLeaf 3]] [] 3).
  - vm_compute. reflexivity.
  - apply (bool_decide_unpack _). vm_compute. exact I.
  - vm_compute. reflexivity.
  - vm_compute. lia.
Defined.

Lemma adaptedIn_adaptedFor h h' l r :
  isLeafAt h l → grows h h' → adaptedIn h h' l r → adaptedFor h h' l r.
Proof.
  intros (o & Ho & Hleaf) Hg Had.
  destruct (Hg _ _ Ho) as (o' & Ho' & Heq). specialize (Heq Hleaf). subst o'.
  destruct Had as [[-> (o' & Ho'' & Hp)]|(kind & class & Hl & Hreg & Hw)].
  - left. split; [done|]. exists o. split; [done|]. congruence.
  - right. exists kind, class. split; [congruence|done].
Qed.

Lemma adaptedIn_providesAt h0 h l r : adaptedIn h0 h l r → providesAt h r.
Proof.
  intros [[-> Hp]|(kind & class & _ & _ & [Hr _])]; [done|].
  by eexists.
Qed.

(** X6: [decorate(suite, itrial.ITestCase)] adapts the suite: a leaf that
    provides the interface stays where it is, a pyunit case is replaced by a
    new instance of the adapter registered for its kind, and afterwards every
    leaf provides the interface. *)
Theorem decorate_with_ITestCase_adapts_every_leaf
    (h : heap) (s : loc) (ts : list tree)
    (calls : list (loc * loc)) (fuel : nat) :
  models h (TSuite s ts) = true →
  NoDup (suites (TSuite s ts)) →
  forallb (wrappable h) (leaves (TSuite s ts)) = true →
  height (TSuite s ts) < fuel →
  ∃ h' calls' before after,
    decorate ITestCase fuel s (DState h calls) = Some (s, DState h' calls') ∧
    iterateTests fuel h s = Some before ∧
    iterateTests fuel h' s = Some after ∧
    Forall2 (adaptedFor h h') before after ∧
    Forall (providesAt h') after.
Proof.
  intros Hm Hnd Hwr Hfuel.
  destruct (decorate_suite_post ITestCase (λ l r h', adaptedIn h h' l r)
              h s ts calls fuel)
    as (ts' & h' & Hdec & Hsk & Hm' & Hg & Hpost); try done.
  { intros l hc r h'. apply ITestCase_post. }
  { intros l r h1 h2. apply adaptedIn_stable. }
  { by apply ITestCase_wraps. }
  eexists h', _, _, _. split; [done|]. split; [|split; [|split]].
  - by apply (iterateTests_tree h (TSuite s ts)).
  - apply (iterateTests_tree h' (TSuite s ts')); [|done].
    by rewrite (skeleton_height _ _ Hsk).
  - eapply Forall2_impl_left; [exact Hpost| |].
    + apply Forall_forall. intros l Hl. exact (models_leaves _ _ _ Hm Hl).
    + intros l r Hl Had. by apply adaptedIn_adaptedFor.
  - eapply Forall2_Forall_right; [exact Hpost|].
    intros l r. apply adaptedIn_providesAt.
Qed.

Lemma decorate_with_ITestCase_adapts_every_leaf_witness :
  ∃ h' calls' before after,
    decorate ITestCase 3 0 (DState exampleStore [])
      = Some (0, DState h' calls') ∧
    iterateTests 3 exampleStore 0 = Some before ∧
    iterateTests 3 h' 0 = Some after ∧
    Forall2 (adaptedFor exampleStore h') before after ∧
    Forall (providesAt h') after.
Proof.
  apply (decorate_with_ITestCase_adapts_every_leaf
           exampleStore 0 [TLeaf 1; TSuite 2 [TLeaf 3]] [] 3).
  - vm_compute. reflexivity.
  - apply (bool_decide_unpack _). vm_compute. exact I.
  - vm_compute. reflexivity.
  - vm_compute. lia.
Defined.

(** X7: adapting a suite is idempotent: a second
    [decorate(suite, itrial.ITestCase)] finds every leaf providing the
    interface and leaves the store as the first one made it. *)
Theorem decorate_with_ITestCase_is_idempotent
    (h : heap) (s : loc) (ts : list tree)
    (calls : list (loc * loc)) (fuel : nat) :
  models h (TSuite s ts) = true →
  NoDup (suites (TSuite s ts)) →
  forallb (wrappable h) (leaves (TSuite s ts)) = true →
  height (TSuite s ts) < fuel →
  ∃ h1 calls1 calls2,
    decorate ITestCase fuel s (DState h calls)
      = Some (s, DState h1 calls1) ∧
    decorate ITestCase fuel s (DState h1 calls1)
      = Some (s, DState h1 calls2).
Proof.
  intros Hm Hnd Hwr Hfuel.
  destruct (decorate_suite_post ITestCase (λ l r h', adaptedIn h h' l r)
              h s ts calls fuel)
    as (ts' & h' & Hdec & Hsk & Hm' & Hg & Hpost); try done.
  { intros l hc r h'. apply ITestCase_post. }
  { intros l r h1 h2. apply adaptedIn_stable. }
  { by apply ITestCase_wraps. }
  eexists h', _, _. split; [exact Hdec|].
  apply (decorate_same_tree ITestCase h' (TSuite s ts')).
  - intros l h1 Hl Hkeep.
    assert (Hp : providesAt h' l).
    { eapply Forall_forall; [|exact Hl].
      eapply Forall2_Forall_right; [exact Hpost|].
      intros x y. apply adaptedIn_providesAt. }
    destruct Hp as (o & Ho & Hp).
    unfold ITestCase.
    by rewrite (Hkeep _ _ Ho (providesITestCase_leaf _ Hp)), Hp.
  - by rewrite (skeleton_height _ _ Hsk).
  - done.
  - by intros k o Hk _.
Qed.

Lemma decorate_with_ITestCase_is_idempotent_witness :
  ∃ h1 calls1 calls2,
    decorate ITestCase 3 0 (DState exampleStore [])
      = Some (0, DState h1 calls1) ∧
    decorate ITestCase 3 0 (DState h1 calls1)
      = Some (0, DState h1 calls2).
Proof.
  apply (decorate_with_ITestCase_is_idempotent
           exampleStore 0 [TLeaf 1; TSuite 2 [TLeaf 3]] [] 3).
  - vm_compute. reflexivity.
  - apply (bool_decide_unpack _). vm_compute. exact I.
  - vm_compute. reflexivity.
  - vm_compute. lia.
Defined.

(** ** [suiteVisit] *)

Lemma visitable_weaken (h h' : heap) l :
  h ⊆ h' → visitable h l = true → visitable h' l = true.
Proof.
  intros Hsub. unfold visitable.
  destruct (h !! l) as [o|] eqn:Ho; [|done].
  by rewrite (lookup_weaken _ _ _ _ Ho Hsub).
Qed.

Lemma visitable_is_Some (h : heap) l : visitable h l = true → is_Some (h !! l).
Proof. unfold visitable. by destruct (h !! l). Qed.

Lemma visitedFor_weaken (h0 h h' h'' : heap) l v :
  h0 ⊆ h → h' ⊆ h'' → is_Some (h0 !! l) →
  visitedFor h h' l v → visitedFor h0 h'' l v.
Proof.
  intros H0 H' [o Ho] Hv.
  pose proof (lookup_weaken _ _ _ _ Ho H0) as Ho'.
  destruct Hv as [[-> (class & orig & Hl)]|(kind & class & Hl & Hreg & Hnew & Hv)].
  - left. split; [done|]. exists class, orig. congruence.
  - right. exists kind, class. split; [congruence|]. split; [done|]. split.
    + destruct (h0 !! v) as [o'|] eqn:Hv0; [|done].
      by rewrite (lookup_weaken _ _ _ _ Hv0 H0) in Hnew.
    + by eapply lookup_weaken.
Qed.

Lemma visitCase_leaf fv rec (σ : vstate) l :
  visitable (v_heap σ) l = true →
  ∃ h' v,
    visitCase fv rec l σ
      = Some (VState h' (v_visited σ ++ [v]) (S (v_warnings σ))) ∧
    v_heap σ ⊆ h' ∧ visitedFor (v_heap σ) h' l v.
Proof.
  unfold visitable, visitCase, ITestCase.
  destruct (v_heap σ !! l) as [[kind| |class orig|]|] eqn:Hl; try done.
  - intros [class Hreg]%bool_decide_eq_true.
    destruct kind; simpl in Hreg; try done; injection Hreg as <-; simpl;
      (eexists _, _; split; [reflexivity|]; split;
       [apply insert_subseteq, not_elem_of_dom, is_fresh|];
       right; eexists _, _; split; [exact Hl|]; split; [reflexivity|]; split;
       [apply not_elem_of_dom, is_fresh|apply lookup_insert_eq]).
  - intros Hclass. destruct class; try done;
      (exists (v_heap σ), l; split; [reflexivity|]; split; [done|];
       left; split; [done|]; by eexists _, _).
Qed.

Lemma visit_children fv fuel ts :
  Forall (λ t, ∀ σ,
    models (v_heap σ) t = true →
    forallb (visitable (v_heap σ)) (leaves t) = true →
    ∃ h' V,
      visitCase fv (suiteVisit fv fuel) (root t) σ
        = Some (VState h' (v_visited σ ++ V)
                  (v_warnings σ + length (suites t) + length (leaves t))) ∧
      v_heap σ ⊆ h' ∧
      Forall2 (visitedFor (v_heap σ) h') (leaves t) V) ts →
  ∀ σ,
    Forall (λ t, models (v_heap σ) t = true) ts →
    forallb (visitable (v_heap σ)) (concat (map leaves ts)) = true →
    ∃ h' V,
      visitAll (visitCase fv (suiteVisit fv fuel)) (map root ts) σ
        = Some (VState h' (v_visited σ ++ V)
                  (v_warnings σ + length (concat (map suites ts))
                   + length (concat (map leaves ts)))) ∧
      v_heap σ ⊆ h' ∧
      Forall2 (visitedFor (v_heap σ) h') (concat (map leaves ts)) V.
Proof.
  intros IH. induction IH as [|t ts Ht _ IHts]; intros σ Hall Hvis.
  - exists (v_heap σ), []. destruct σ as [h visited warnings]. simpl.
    rewrite app_nil_r, !Nat.add_0_r. repeat split; [done|constructor].
  - apply Forall_cons in Hall as [Hm Hall]. simpl in Hvis.
    rewrite forallb_app in Hvis. apply andb_true_iff in Hvis as [Hvt Hvis].
    destruct (Ht σ Hm Hvt) as (h1 & V1 & Hvisit & Hsub1 & Hfor1).
    destruct (IHts (VState h1 (v_visited σ ++ V1)
                      (v_warnings σ + length (suites t) + length (leaves t))))
      as (h' & V2 & Hrest & Hsub2 & Hfor2).
    { simpl. eapply Forall_models_preserved;
        [exact Hall|by apply (preserved_subseteq [])|].
      by intros k _ ?%elem_of_nil. }
    { simpl. apply forallb_Forall. apply forallb_Forall in Hvis.
      eapply Forall_impl; [exact Hvis|]. intros l. by apply visitable_weaken. }
    simpl in *. exists h', (V1 ++ V2). rewrite Hvisit, Hrest.
    split; [|split].
    + f_equal. f_equal; [by rewrite app_assoc|]. rewrite !length_app. lia.
    + by etrans.
    + apply Forall2_app.
      * eapply Forall2_impl_left; [exact Hfor1| |].
        -- apply forallb_Forall in Hvt. exact Hvt.
        -- intros l v Hl Hv.
           apply (visitedFor_weaken (v_heap σ) (v_heap σ) h1 h' l v);
             [done|exact Hsub2|by apply visitable_is_Some|exact Hv].
      * eapply Forall2_impl_left; [exact Hfor2| |].
        -- apply forallb_Forall in Hvis. exact Hvis.
        -- intros l v Hl Hv.
           apply (visitedFor_weaken (v_heap σ) h1 h' h' l v);
             [exact Hsub1|done|by apply visitable_is_Some|exact Hv].
Qed.

Lemma visitCase_tree fv t :
  ∀ fuel σ,
    height t < fuel →
    models (v_heap σ) t = true →
    forallb (visitable (v_heap σ)) (leaves t) = true →
    ∃ h' V,
      visitCase fv (suiteVisit fv fuel) (root t) σ
        = Some (VState h' (v_visited σ ++ V)
                  (v_warnings σ + length (suites t) + length (leaves t))) ∧
      v_heap σ ⊆ h' ∧
      Forall2 (visitedFor (v_heap σ) h') (leaves t) V.
Proof.
  induction t as [l|s ts IH] using tree_ind; intros fuel σ Hfuel Hm Hvis.
  - simpl in Hvis. rewrite andb_true_r in Hvis.
    destruct (visitCase_leaf fv (suiteVisit fv fuel) σ l Hvis)
      as (h' & v & Hvisit & Hsub & Hfor).
    exists h', [v]. simpl. rewrite Hvisit. split; [|split; [done|]].
    + do 2 f_equal. lia.
    + by constructor.
  - destruct fuel as [|fuel]; [lia|]. simpl in Hfuel.
    apply models_suite in Hm as [Hs Hall].
    destruct (visit_children fv fuel ts) with (σ := warn σ)
      as (h' & V & Hvisit & Hsub & Hfor); try done.
    { rewrite Forall_forall in IH. apply Forall_forall. intros t Ht σ' Hm' Hv'.
      apply IH; try done. apply height_child in Ht. lia. }
    exists h', V. unfold visitCase. simpl. rewrite Hs. simpl in *.
    rewrite Hvisit. split; [|done]. do 2 f_equal. lia.
Qed.

Lemma suiteVisit_tree fv h s ts visited warnings fuel :
  models h (TSuite s ts) = true →
  forallb (visitable h) (leaves (TSuite s ts)) = true →
  height (TSuite s ts) < fuel →
  ∃ h' V,
    suiteVisit fv fuel s (VState h visited warnings)
      = Some (VState h' (visited ++ V)
                (warnings + length (suites (TSuite s ts))
                 + length (leaves (TSuite s ts)))) ∧
    h ⊆ h' ∧
    Forall2 (visitedFor h h') (leaves (TSuite s ts)) V.
Proof.
  intros Hm Hvis Hfuel.
  destruct (visitCase_tree fv (TSuite s ts) fuel (VState h visited warnings))
    as (h' & V & Hvisit & Hsub & Hfor); try done.
  apply models_suite in Hm as [Hs _].
  unfold visitCase in Hvisit. simpl in Hvisit. rewrite Hs in Hvisit.
  exists h', V. by split.
Qed.

(** X8: on a suite whose leaves are pyunit cases or adapters, [suiteVisit]
    calls the visitor once for every leaf, in the order in which
    [iterateTests] yields the leaves; the visitor receives an adapter, never
    a bare pyunit case: the leaf itself when it is an adapter, and otherwise
    a new instance of the adapter registered for the kind of the case, built
    around it. *)
Theorem suiteVisit_visits_an_adapter_of_every_leaf
    (foreignVisit : loc → vstate → option vstate)
    (h : heap) (s : loc) (ts : list tree)
    (visited : list loc) (warnings fuel : nat) :
  models h (TSuite s ts) = true →
  forallb (visitable h) (leaves (TSuite s ts)) = true →
  height (TSuite s ts) < fuel →
  ∃ σ' yielded V,
    suiteVisit foreignVisit fuel s (VState h visited warnings) = Some σ' ∧
    iterateTests fuel h s = Some yielded ∧
    v_visited σ' = visited ++ V ∧
    Forall2 (visitedFor h (v_heap σ')) yielded V.
Proof.
  intros Hm Hvis Hfuel.
  destruct (suiteVisit_tree foreignVisit h s ts visited warnings fuel)
    as (h' & V & Hvisit & Hsub & Hfor); try done.
  eexists _, _, V. split; [exact Hvisit|]. split; [|by split].
  by apply (iterateTests_tree h (TSuite s ts)).
Qed.

Lemma suiteVisit_visits_an_adapter_of_every_leaf_witness :
  ∃ σ' yielded V,
    suiteVisit noForeignVisit 3 0 (VState visitStore [] 0) = Some σ' ∧
    iterateTests 3 visitStore 0 = Some yielded ∧
    v_visited σ' = [] ++ V ∧
    Forall2 (visitedFor visitStore (v_heap σ')) yielded V.
Proof.
  apply (suiteVisit_visits_an_adapter_of_every_leaf noForeignVisit
           visitStore 0 [TLeaf 1; TSuite 2 [TLeaf 3; TLeaf 4]] [] 0 3).
  - vm_compute. reflexivity.
  - vm_compute. reflexivity.
  - vm_compute. lia.
Defined.

(** X9: [suiteVisit] issues one deprecation warning for every suite it
    enters and one for every leaf it visits through an adapter. *)
Theorem suiteVisit_warns_once_per_suite_and_leaf
    (foreignVisit : loc → vstate → option vstate)
    (h : heap) (s : loc) (ts : list tree)
    (visited : list loc) (warnings fuel : nat) :
  models h (TSuite s ts) = true →
  forallb (visitable h) (leaves (TSuite s ts)) = true →
  height (TSuite s ts) < fuel →
  ∃ σ',
    suiteVisit foreignVisit fuel s (VState h visited warnings) = Some σ' ∧
    v_warnings σ' = warnings + length (suites (TSuite s ts))
                    + length (leaves (TSuite s ts)).
Proof.
  intros Hm Hvis Hfuel.
  destruct (suiteVisit_tree foreignVisit h s ts visited warnings fuel)
    as (h' & V & Hvisit & Hsub & Hfor); try done.
  eexists. by split.
Qed.

Lemma suiteVisit_warns_once_per_suite_and_leaf_witness :
  ∃ σ',
    suiteVisit noForeignVisit 3 0 (VState visitStore [] 0) = Some σ' ∧
    v_warnings σ' = 0 + 2 + 3.
Proof.
  apply (suiteVisit_warns_once_per_suite_and_leaf noForeignVisit
           visitStore 0 [TLeaf 1; TSuite 2 [TLeaf 3; TLeaf 4]] [] 0 3).
  - vm_compute. reflexivity.
  - vm_compute. reflexivity.
  - vm_compute. lia.
Defined.

(** X10: unlike [decorate], [suiteVisit] leaves the suite as it is: the
    adapters it builds are new objects, no existing object is modified, and
    [iterateTests] yields afterwards what it yielded before. *)
Theorem suiteVisit_leaves_the_suite_unchanged
    (foreignVisit : loc → vstate → option vstate)
    (h : heap) (s : loc) (ts : list tree)
    (visited : list loc) (warnings fuel : nat) :
  models h (TSuite s ts) = true →
  forallb (visitable h) (leaves (TSuite s ts)) = true →
  height (TSuite s ts) < fuel →
  ∃ σ',
    suiteVisit foreignVisit fuel s (VState h visited warnings) = Some σ' ∧
    (∀ k o, h !! k = Some o → v_heap σ' !! k = Some o) ∧
    iterateTests fuel (v_heap σ') s = iterateTests fuel h s.
Proof.
  intros Hm Hvis Hfuel.
  destruct (suiteVisit_tree foreignVisit h s ts visited warnings fuel)
    as (h' & V & Hvisit & Hsub & Hfor); try done.
  eexists. split; [exact Hvisit|]. simpl. split.
  - intros k o Hk. by eapply lookup_weaken.
  - rewrite (iterateTests_tree h (TSuite s ts)) by done.
    apply (iterateTests_tree h' (TSuite s ts)); [done|].
    eapply models_preserved; [exact Hm|by apply (preserved_subseteq [])|].
    by intros k _ ?%elem_of_nil.
Qed.

Lemma suiteVisit_leaves_the_suite_unchanged_witness :
  ∃ σ',
    suiteVisit noForeignVisit 3 0 (VState visitStore [] 0) = Some σ' ∧
    (∀ k o, visitStore !! k = Some o → v_heap σ' !! k = Some o) ∧
    iterateTests 3 (v_heap σ') 0 = iterateTests 3 visitStore 0.
Proof.
  apply (suiteVisit_leaves_the_suite_unchanged noForeignVisit
           visitStore 0 [TLeaf 1; TSuite 2 [TLeaf 3; TLeaf 4]] [] 0 3).
  - vm_compute. reflexivity.
  - vm_compute. reflexivity.
  - vm_compute. lia.
Defined.

Example suiteVisit_example :
  match suiteVisit noForeignVisit 3 0 (VState visitStore [] 0) with
  | Some σ' =>
      Some (v_visited σ', v_warnings σ',
            v_heap σ' !! 5, v_heap σ' !! 6)
  | None => None
  end
  = Some ([5; 6; 4], 5,
          Some (Decorator _PyUnitTestCaseAdapter 1),
          Some (Decorator _BrokenIDTestCaseAdapter 3)).
Proof. vm_compute. reflexivity. Qed.

(** ** [TestSuite.run]: exceptions, completion, nested suites *)

(** X11: [TestSuite.run] does not catch what a child raises: the exception
    leaves [run] with the world the child left, and no later child is
    invoked. *)
Theorem TestSuite_run_propagates_the_exception_of_a_child
    (h : heap) (call : loc → result → M pyvalue)
    (self : loc) (result : result) (w : world)
    (pre : list loc) (child : loc) (post : list loc)
    (wk : world) (x : exn) (w' : world) :
  h !! self = Some (Suite (pre ++ child :: post)) →
  runTests call pre result w = (pre, Returns tt wk) →
  shouldStop wk = false →
  call child result wk = Raises x w' →
  TestSuite_run h call self result w = (pre ++ [child], Raises x w').
Proof.
  intros Hself Hpre Hstop Hcall. unfold TestSuite_run. rewrite Hself.
  rewrite (runTests_app _ _ _ _ _ _ Hpre). simpl.
  by rewrite Hstop, Hcall.
Qed.

Lemma TestSuite_run_propagates_the_exception_of_a_child_witness :
  TestSuite_run exampleStore raisingCall 0 Collector idleWorld
    = ([] ++ [1], Raises (Exception "KeyboardInterrupt") idleWorld).
Proof.
  apply (TestSuite_run_propagates_the_exception_of_a_child
           exampleStore raisingCall 0 Collector idleWorld [] 1 [2] idleWorld);
    reflexivity.
Defined.

(** X12: when no child raises and none leaves [shouldStop] set,
    [TestSuite.run] invokes every child, in the order of [_tests], and
    returns the result. *)
Theorem TestSuite_run_invokes_every_child
    (h : heap) (call : loc → result → M pyvalue)
    (self : loc) (tests : list loc) (result : result) (w : world) :
  h !! self = Some (Suite tests) →
  (∀ t w1, t ∈ tests → shouldStop w1 = false →
           ∃ v w2, call t result w1 = Returns v w2 ∧ shouldStop w2 = false) →
  shouldStop w = false →
  ∃ w', TestSuite_run h call self result w
          = (tests, Returns (PyResult result) w') ∧
        shouldStop w' = false.
Proof.
  intros Hself Hcall Hstop. unfold TestSuite_run. rewrite Hself.
  assert (Hloop : ∃ w', runTests call tests result w = (tests, Returns tt w')
                        ∧ shouldStop w' = false).
  { clear Hself. revert w Hstop.
    induction tests as [|t tests IH]; intros w Hstop; simpl.
    - by exists w.
    - rewrite Hstop.
      destruct (Hcall t w) as (v & w1 & -> & Hstop1); [by left|done|].
      destruct IH with (w := w1) as (w' & -> & Hstop'); [|done|].
      + intros t' w2 Ht'. apply Hcall. by right.
      + by exists w'. }
  destruct Hloop as (w' & -> & Hstop'). by exists w'.
Qed.

Lemma TestSuite_run_invokes_every_child_witness :
  ∃ w', TestSuite_run exampleStore recordingCall 0 Collector idleWorld
          = ([1; 2], Returns (PyResult Collector) w') ∧
        shouldStop w' = false.
Proof.
  apply (TestSuite_run_invokes_every_child
           exampleStore recordingCall 0 [1; 2] Collector idleWorld).
  - reflexivity.
  - intros t w1 _ Hstop. by eexists _, _.
  - reflexivity.
Defined.

Lemma runTests_stopped call tests result w :
  shouldStop w = true → runTests call tests result w = ([], Returns tt w).
Proof. intros Hstop. destruct tests; simpl; [done|]. by rewrite Hstop. Qed.

(** The loop over a list in two parts: the second part starts from the world
    the first part left, unless the first part raised. *)
Lemma runTests_snd_app call result l1 l2 :
  ∀ w,
    snd (runTests call (l1 ++ l2) result w) =
      match snd (runTests call l1 result w) with
      | Returns _ w' => snd (runTests call l2 result w')
      | Raises x w' => Raises x w'
      end.
Proof.
  induction l1 as [|t l1 IH]; intros w; simpl; [done|].
  destruct (shouldStop w) eqn:Hstop; simpl.
  - by rewrite runTests_stopped.
  - destruct (call t result w) as [v w1|x w1]; [|done].
    specialize (IH w1).
    destruct (runTests call (l1 ++ l2) result w1) as [i1 o1].
    destruct (runTests call l1 result w1) as [i2 o2]. done.
Qed.

Lemma callTest_tree h leafCall result t :
  ∀ fuel w,
    height t < fuel → models h t = true →
    callTest h leafCall fuel (root t) result w =
      match t with
      | TLeaf l => leafCall l result w
      | TSuite _ _ =>
          returnResult result (snd (runTests leafCall (leaves t) result w))
      end.
Proof.
  induction t as [l|s ts IH] using tree_ind; intros [|fuel] w Hfuel Hm;
    try lia.
  - apply models_leaf in Hm as (o & Ho & Hleaf). simpl. rewrite Ho.
    by destruct o.
  - apply models_suite in Hm as [Hs Hall]. simpl in Hfuel. simpl.
    rewrite Hs. unfold TestSuite___call__, TestSuite_run. rewrite Hs.
    assert (Hloop : ∀ w,
      snd (runTests (callTest h leafCall fuel) (map root ts) result w)
      = snd (runTests leafCall (concat (map leaves ts)) result w)).
    { assert (Hh : ∀ t, t ∈ ts → height t < fuel).
      { intros t Ht. apply height_child in Ht. lia. }
      clear Hs Hfuel w. induction ts as [|t ts IHts]; intros w; [done|].
      apply Forall_cons in IH as [IHt IH], Hall as [Hmt Hall]. simpl.
      rewrite runTests_snd_app.
      destruct (shouldStop w) eqn:Hstop.
      - rewrite (runTests_stopped _ (leaves t)) by done. simpl.
        by rewrite runTests_stopped.
      - rewrite (IHt fuel w) by (done || apply Hh; by left).
        assert (Hrest : ∀ w1,
          snd (runTests (callTest h leafCall fuel) (map root ts) result w1)
          = snd (runTests leafCall (concat (map leaves ts)) result w1)).
        { intros w1. apply (IHts IH Hall). intros t' Ht'. apply Hh. by right. }
        destruct t as [l|s' ts'].
        + simpl. rewrite Hstop.
          destruct (leafCall l result w) as [v w1|x w1]; [|done].
          specialize (Hrest w1).
          destruct (runTests (callTest h leafCall fuel) _ result w1).
          simpl in *. by rewrite Hrest.
        + destruct (snd (runTests leafCall (leaves (TSuite s' ts')) result w))
            as [v w1|x w1]; [|done].
          simpl. specialize (Hrest w1).
          destruct (runTests (callTest h leafCall fuel) _ result w1).
          simpl in *. by rewrite Hrest. }
    specialize (Hloop w).
    destruct (runTests (callTest h leafCall fuel) (map root ts) result w).
    simpl in *. by rewrite Hloop.
Qed.

(** X13: running a suite of nested suites is running its leaves one after
    the other, in the order in which [iterateTests] yields them, with
    [shouldStop] checked before each: same final world, same exception if a
    leaf raises, and the result returned otherwise. *)
Theorem nested_suites_run_their_leaves_in_iteration_order
    (h : heap) (leafCall : loc → result → M pyvalue)
    (s : loc) (ts : list tree) (result : result) (w : world) (fuel : nat) :
  models h (TSuite s ts) = true →
  height (TSuite s ts) < fuel →
  ∃ yielded,
    iterateTests fuel h s = Some yielded ∧
    callTest h leafCall fuel s result w
      = returnResult result (snd (runTests leafCall yielded result w)).
Proof.
  intros Hm Hfuel. exists (leaves (TSuite s ts)). split.
  - by apply (iterateTests_tree h (TSuite s ts)).
  - by apply (callTest_tree h leafCall result (TSuite s ts)).
Qed.

Lemma nested_suites_run_their_leaves_in_iteration_order_witness :
  ∃ yielded,
    iterateTests 3 exampleStore 0 = Some yielded ∧
    callTest exampleStore recordingCall 3 0 Collector idleWorld
      = returnResult Collector
          (snd (runTests recordingCall yielded Collector idleWorld)).
Proof.
  apply (nested_suites_run_their_leaves_in_iteration_order
           exampleStore recordingCall 0 [TLeaf 1; TSuite 2 [TLeaf 3]]
           Collector idleWorld 3).
  - vm_compute. reflexivity.
  - vm_compute. lia.
Defined.

Example nested_run_example :
  callTest exampleStore recordingCall 3 0 Collector idleWorld
  = Returns (PyResult Collector)
      (World {| capturing := false; captured := [] |} false
         [(TestObject 1, "ran"); (TestObject 3, "ran")]).
Proof. reflexivity. Qed.

(** ** [addTest] and [iterateTests] *)

Lemma foldr_max_app xs ys :
  foldr max 0 (xs ++ ys) = max (foldr max 0 xs) (foldr max 0 ys).
Proof. induction xs as [|x xs IH]; simpl; [done|]. rewrite IH. lia. Qed.

(** X14: after [suite.addTest(test)], [iterateTests(suite)] yields what it
    yielded before followed by what [iterateTests(test)] yields, provided
    the suite is not itself inside [test]. *)
Theorem addTest_appends_the_leaves_of_the_test
    (h : heap) (s : loc) (ts : list tree) (tn : tree) (fuel : nat) :
  models h (TSuite s ts) = true →
  models h tn = true →
  s ∉ suites tn →
  height (TSuite s ts) < fuel →
  S (height tn) < fuel →
  ∃ h' before added,
    addTest s (root tn) h = Some h' ∧
    iterateTests fuel h s = Some before ∧
    iterateTests fuel h (root tn) = Some added ∧
    iterateTests fuel h' s = Some (before ++ added).
Proof.
  intros Hm Hmn Hsn Hfuel Hfueln.
  pose proof (models_acyclic _ _ _ Hm) as Hacyc.
  pose proof Hm as [Hs Hall]%models_suite.
  unfold addTest. rewrite Hs.
  set (h' := <[s := Suite (map root ts ++ [root tn])]> h).
  assert (Hp : preserved [s] h h') by (by eapply preserved_insert_suite).
  assert (Hm' : models h' (TSuite s (ts ++ [tn])) = true).
  { apply models_suite. split.
    - unfold h'. by rewrite lookup_insert_eq, map_app.
    - apply Forall_app. split.
      + eapply Forall_models_preserved; [exact Hall|exact Hp|].
        intros k Hk ->%list_elem_of_singleton. done.
      + apply Forall_singleton.
        eapply models_preserved; [exact Hmn|exact Hp|].
        intros k Hk ->%list_elem_of_singleton. done. }
  exists h', (leaves (TSuite s ts)), (leaves tn).
  split; [done|]. split; [|split].
  - by apply (iterateTests_tree h (TSuite s ts)).
  - apply (iterateTests_tree h tn); [lia|done].
  - rewrite (iterateTests_tree h' (TSuite s (ts ++ [tn]))); [|simpl|done].
    + simpl. rewrite map_app, concat_app. simpl. by rewrite app_nil_r.
    + simpl in *. rewrite map_app, foldr_max_app. simpl. lia.
Qed.

Lemma addTest_appends_the_leaves_of_the_test_witness :
  ∃ h' before added,
    addTest 2 1 exampleStore = Some h' ∧
    iterateTests 3 exampleStore 2 = Some before ∧
    iterateTests 3 exampleStore 1 = Some added ∧
    iterateTests 3 h' 2 = Some (before ++ added).
Proof.
  apply (addTest_appends_the_leaves_of_the_test
           exampleStore 2 [TLeaf 3] (TLeaf 1) 3).
  - vm_compute. reflexivity.
  - vm_compute. reflexivity.
  - apply not_elem_of_nil.
  - vm_compute. lia.
  - vm_compute. lia.
Defined.

Lemma yieldAll_None rec suite test :
  test ∈ suite → rec test = None → yieldAll rec suite = None.
Proof.
  intros Hin Hrec. induction suite as [|t suite IH]; [by apply elem_of_nil in Hin|].
  simpl. apply elem_of_cons in Hin as [<-|Hin]; [by rewrite Hrec|].
  destruct (rec t); [|done]. by rewrite (IH Hin).
Qed.

(** X15: a suite that holds itself cannot be iterated to the end: the
    recursion of [iterateTests] never comes back, whatever the depth
    allowed. *)
Theorem iterateTests_never_finishes_on_a_suite_inside_itself
    (h : heap) (s : loc) (tests : list loc) :
  h !! s = Some (Suite tests) →
  s ∈ tests →
  ∀ fuel, iterateTests fuel h s = None.
Proof.
  intros Hs Hin fuel. induction fuel as [|fuel IH]; [done|].
  simpl. rewrite Hs. by eapply yieldAll_None.
Qed.

Lemma iterateTests_never_finishes_on_a_suite_inside_itself_witness :
  iterateTests 7 selfStore 0 = None.
Proof.
  apply (iterateTests_never_finishes_on_a_suite_inside_itself
           selfStore 0 [1; 0]).
  - reflexivity.
  - apply (bool_decide_unpack _). vm_compute. exact I.
Defined.
